(** * Dictionaries of telran-backend-hw24: [Entry], [BaseDict], [MyDict],
      [MySortedDict] and [DictCache]

    A shallow embedding of the Python sources under [src/]:
    - [Entry.py]        the key/value pair compared and hashed by its key,
    - [BaseDict.py]     the abstract dictionary and the API derived from the
                        four storage methods,
    - [MyDict.py]       storage in a Python [set] of entries,
    - [MySortedDict.py] storage in a [SortedSet] of entries,
    - [DictCache.py]    the bounded cache built on [OrderedDict].

    Python objects are mutable; every method is a state transformer that
    returns the outcome of the call (a value or a raised exception) together
    with the state of the object after the call.  An exception does not roll
    the state back. *)

From Equations Require Import Equations.
From stdpp Require Import base option list gmap fin_maps sorting strings pretty.
From Stdlib Require Import ZArith Lia OrderedTypeEx.

Local Open Scope Z_scope.
Local Open Scope nat_scope.

(** ** Exceptions and the method monad *)

(** The exception classes the sources raise.  The argument of the exception
    (the key, the message) is not modelled. *)
Inductive exn : Set :=
| KeyError
| IndexError.

#[global] Instance exn_eq_dec : EqDecision exn.
Proof. solve_decision. Defined.

(** Outcome of a call: an exception or a returned value. *)
Definition outcome (A : Type) : Type := exn + A.

(** A method of an object with state [S] returning an [A]. *)
Definition M (S A : Type) : Type := S → outcome A * S.

#[global] Instance M_ret {S} : MRet (M S) := λ A a s, (inr a, s).

#[global] Instance M_bind {S} : MBind (M S) := λ A B f m s,
  match m s with
  | (inr a, s') => f a s'
  | (inl e, s') => (inl e, s')
  end.

Definition raise {S A} (e : exn) : M S A := λ s, (inl e, s).

(** Reading, writing and fallibly writing the state. *)
Definition reads {S A} (f : S → A) : M S A := λ s, (inr (f s), s).

Definition writes {S} (f : S → S) : M S unit := λ s, (inr tt, f s).

Definition tries {S} (f : S → outcome S) : M S unit :=
  λ s, match f s with
       | inr s' => (inr tt, s')
       | inl e => (inl e, s)
       end.

(** A fallible read of the state. *)
Definition attempts {S A} (f : S → outcome A) : M S A := λ s, (f s, s).

(** The value a call returns (or the exception it raises) and the state it
    leaves. *)
Definition result {S A} (m : M S A) (s : S) : outcome A := (m s).1.
Definition after {S A} (m : M S A) (s : S) : S := (m s).2.

(** Python's [None], which the sources pass where a [V] is expected
    (the probe entries, the default of [get] and [setdefault]). *)
Class PyNone (V : Type) := py_None : V.

#[global] Instance option_PyNone {A} : PyNone (option A) := None.

(** ** Entry.py *)

(** [@dataclass(order=True, frozen=True) class Entry]: [key] takes part in
    comparisons, [value] is declared with [compare=False, hash=False]. *)
Record Entry (K V : Type) : Type := mkEntry { key : K; value : V }.
Arguments mkEntry {K V} _ _.
Arguments key {K V} _.
Arguments value {K V} _.

(** Python's [<] on keys, with the laws of a strict total order; [==] on keys
    is decidable equality. *)
Class PyOrd (K : Type) `{EqDecision K} : Type := {
  py_lt : K → K → bool;
  py_lt_irrefl x : py_lt x x = false;
  py_lt_trans x y z : py_lt x y = true → py_lt y z = true → py_lt x z = true;
  py_lt_total x y : py_lt x y = false → py_lt y x = false → x = y
}.

Section entry.
Context {K V : Type} `{EqDecision K}.

(** The generated [__eq__] compares the tuples of the compared fields,
    [(self.key,) == (other.key,)]. *)
Definition Entry_eqb (a b : Entry K V) : bool := bool_decide (key a = key b).

(** The generated [__lt__] compares [(self.key,) < (other.key,)]: tuples are
    compared at the first position where they differ, and equal tuples are
    not less than one another. *)
Definition Entry_ltb `{!PyOrd K} (a b : Entry K V) : bool :=
  if decide (key a = key b) then false else py_lt (key a) (key b).

End entry.

Class PyStr (A : Type) := py_str : A → string.
#[global] Hint Mode PyStr ! : typeclass_instances.

#[global] Instance string_PyStr : PyStr string := λ s, s.
#[global] Instance Z_PyStr : PyStr Z := λ z, pretty z.
#[global] Instance option_PyStr {A} `{!PyStr A} : PyStr (option A) := λ o,
  match o with
  | Some a => py_str a
  | None => "None"%string
  end.

Section entry_methods.
Context {K V : Type}.


(** [return f"'{self.key}': {self.value}"] *)
Definition Entry__str__ `{!PyStr K} `{!PyStr V} (e : Entry K V) : string :=
  ("'" +:+ py_str (key e) +:+ "': " +:+ py_str (value e))%string.

End entry_methods.

(** ** BaseDict.py *)

(** The four abstract methods of [BaseDict], over the storage [D] of a
    subclass.  [__len__] is not part of [BaseDict]; both subclasses define
    it, see [PyLen]. *)
Class BaseDict (K V D : Type) : Type := {
  _get_entry : K → D → option (Entry K V);
  _add_entry : Entry K V → D → D;
  _remove_entry : Entry K V → D → outcome D;
  _entries : D → list (Entry K V)
}.

Class PyLen (D : Type) := __len__ : D → nat.

Section base_dict.
Context {K V D : Type} `{!BaseDict K V D}.

(** [return entry.value if entry is not None else default] *)
Definition _value_or_default (entry : option (Entry K V)) (default : V) : V :=
  match entry with
  | Some e => value e
  | None => default
  end.

(** [entry = self._get_entry(key)]
    [if entry is not None: self._remove_entry(entry)]
    [self._add_entry(Entry(key, value))] *)
Definition __setitem__ (k : K) (v : V) : M D unit :=
  entry ← reads (_get_entry k);
  (match entry with
   | Some e => tries (_remove_entry e)
   | None => mret tt
   end);;
  writes (_add_entry (mkEntry k v)).

(** [entry = self._get_entry(key)]
    [if entry is None: raise KeyError(key)]
    [return entry.value] *)
Definition __getitem__ (k : K) : M D V :=
  entry ← reads (_get_entry k);
  match entry with
  | None => raise KeyError
  | Some e => mret (value e)
  end.

(** [return self._value_or_default(self._get_entry(key), default)] *)
Definition get (k : K) (default : V) : M D V :=
  entry ← reads (_get_entry k);
  mret (_value_or_default entry default).

(** [entry = self._get_entry(key)]
    [if entry is None: self._add_entry(Entry(key, default))]
    [return self._value_or_default(entry, default)] *)
Definition setdefault (k : K) (default : V) : M D V :=
  entry ← reads (_get_entry k);
  (match entry with
   | None => writes (_add_entry (mkEntry k default))
   | Some _ => mret tt
   end);;
  mret (_value_or_default entry default).

(** [pop(key, default=_sentinel)]: an omitted [default] is the sentinel,
    here [None]; a supplied one is [Some d].
    [entry = self._get_entry(key)]
    [if entry is None and default is self._sentinel: raise KeyError(key)]
    [if entry is not None: self._remove_entry(entry)]
    [return self._value_or_default(entry, default)] *)
Definition pop (k : K) (default : option V) : M D V :=
  entry ← reads (_get_entry k);
  match entry, default with
  | None, None => raise KeyError
  | None, Some d => mret (_value_or_default None d)
  | Some e, _ => tries (_remove_entry e);; mret (value e)
  end.

(** [old_entry = self._get_entry(key)]
    [if old_entry is not None: self._remove_entry(old_entry)]
    [self._add_entry(Entry(key, value))] *)
Definition update (k : K) (v : V) : M D unit :=
  old_entry ← reads (_get_entry k);
  (match old_entry with
   | Some e => tries (_remove_entry e)
   | None => mret tt
   end);;
  writes (_add_entry (mkEntry k v)).

(** [[(e.key, e.value) for e in self._entries()]] *)
Definition items (d : D) : list (K * V) := (λ e, (key e, value e)) <$> _entries d.

(** [[e.key for e in self._entries()]] *)
Definition keys (d : D) : list K := key <$> _entries d.

(** [[e.value for e in self._entries()]] *)
Definition values (d : D) : list V := value <$> _entries d.

(** [str_entries = (str(entry) for entry in self._entries())]
    [return "{" + ", ".join(str_entries) + "}"] *)
Definition __str__ `{!PyStr K} `{!PyStr V} (d : D) : string :=
  ("{" +:+ String.concat ", " (Entry__str__ <$> _entries d) +:+ "}")%string.

(** The calls a client makes on a dictionary, and a program of such calls.
    A client that catches the exception of a call goes on with the object as
    the call left it. *)
Inductive call : Type :=
| CallSetitem (k : K) (v : V)
| CallGetitem (k : K)
| CallGet (k : K) (default : V)
| CallSetdefault (k : K) (default : V)
| CallPop (k : K) (default : option V)
| CallUpdate (k : K) (v : V).

Definition do_call (c : call) (d : D) : D :=
  match c with
  | CallSetitem k v => after (__setitem__ k v) d
  | CallGetitem k => after (__getitem__ k) d
  | CallGet k default => after (get k default) d
  | CallSetdefault k default => after (setdefault k default) d
  | CallPop k default => after (pop k default) d
  | CallUpdate k v => after (update k v) d
  end.

Definition do_calls (cs : list call) (d : D) : D := foldl (λ d c, do_call c d) d cs.

(** What a call hands to the client: the exception, or the returned value,
    which is [None] for the methods without [return]. *)
Definition returned {A} (f : A → option V) (o : outcome A) : outcome (option V) :=
  match o with
  | inl e => inl e
  | inr a => inr (f a)
  end.

Definition call_result (c : call) (d : D) : outcome (option V) :=
  match c with
  | CallSetitem k v => returned (λ _, None) (result (__setitem__ k v) d)
  | CallGetitem k => returned Some (result (__getitem__ k) d)
  | CallGet k default => returned Some (result (get k default) d)
  | CallSetdefault k default => returned Some (result (setdefault k default) d)
  | CallPop k default => returned Some (result (pop k default) d)
  | CallUpdate k v => returned (λ _, None) (result (update k v) d)
  end.

End base_dict.

(** ** Python's set of entries *)

(** A Python [set] of entries.  Entries are hashed and compared by key alone,
    so a set holds at most one entry for a key and keeps the entry that was
    added first: it is a finite map from the key to the value of the stored
    entry.  The order in which a [set] is iterated is not specified by
    Python; it is the order of [map_to_list] here. *)
Module PySet.
Section py_set.
Context {K V : Type} `{Countable K}.

(** [set()] *)
Definition empty : gmap K V := ∅.

(** [entry in s] *)
Definition contains (entry : Entry K V) (s : gmap K V) : bool :=
  bool_decide (is_Some (s !! key entry)).

(** [for e in s] *)
Definition iter (s : gmap K V) : list (Entry K V) :=
  (λ kv, mkEntry kv.1 kv.2) <$> map_to_list s.

(** [s.add(entry)]: no effect when an equal entry is stored. *)
Definition add (entry : Entry K V) (s : gmap K V) : gmap K V :=
  if contains entry s then s else <[key entry := value entry]> s.

(** [s.remove(entry)]: [KeyError] when no equal entry is stored. *)
Definition remove (entry : Entry K V) (s : gmap K V) : outcome (gmap K V) :=
  if contains entry s then inr (delete (key entry) s) else inl KeyError.

(** [len(s)] *)
Definition len (s : gmap K V) : nat := size s.

End py_set.
End PySet.

(** ** MyDict.py *)

(** The state of a [MyDict] is its attribute [__entries]. *)
Module MyDict.
Section my_dict.
Context {K V : Type} `{Countable K} `{!PyNone V}.

(** [self.__entries: set[Entry] = set()] *)
Definition __init__ : gmap K V := PySet.empty.

(** [probe = Entry(key, None)]
    [if probe in self.__entries:]
    [    return next(e for e in self.__entries if e == probe)]
    [return None]
    After a successful membership test the scan finds an entry, so [next]
    does not run out of entries. *)
Definition _get_entry (k : K) (entries : gmap K V) : option (Entry K V) :=
  let probe := mkEntry k py_None in
  if PySet.contains probe entries
  then find (λ e, Entry_eqb e probe) (PySet.iter entries)
  else None.

(** [self.__entries.add(entry)] *)
Definition _add_entry (entry : Entry K V) (entries : gmap K V) : gmap K V :=
  PySet.add entry entries.

(** [self.__entries.remove(entry)] *)
Definition _remove_entry (entry : Entry K V) (entries : gmap K V) :
    outcome (gmap K V) :=
  PySet.remove entry entries.

(** [return self.__entries] *)
Definition _entries (entries : gmap K V) : list (Entry K V) := PySet.iter entries.

(** [return len(self.__entries)] *)
Definition __len__ (entries : gmap K V) : nat := PySet.len entries.

End my_dict.
End MyDict.

#[global] Instance MyDict_BaseDict {K V : Type} `{Countable K} `{!PyNone V} :
    BaseDict K V (gmap K V) := {|
  _get_entry := MyDict._get_entry;
  _add_entry := MyDict._add_entry;
  _remove_entry := MyDict._remove_entry;
  _entries := MyDict._entries
|}.

#[global] Instance MyDict_len {K V : Type} `{Countable K} : PyLen (gmap K V) :=
  MyDict.__len__.

(** ** The SortedSet container *)

(** Modelled from the spec: [SortedSet] comes from the [sortedcontainers]
    package, which is not part of [src/].  The spec describes it as "an
    order-maintained sequence of entries sorted by key", searched by binary
    search with "leftmost/rightmost boundary semantics" and extended by
    "binary-search for insertion position, splice in".  The container is the
    sequence of its elements; the searches are the loops of Python's [bisect]
    module. *)
Module SortedSet.
Section sorted_set.
Context {K V : Type} `{EqDecision K} `{!PyOrd K}.

(** Modelled from the spec: the leftmost insertion position of [x] in
    [a[lo:hi]], by binary search:
    [while lo < hi: mid = (lo + hi) // 2;]
    [  if a[mid] < x: lo = mid + 1  else: hi = mid]
    [return lo].
    An index outside [a], which the loop never reads when [hi <= len(a)],
    ends the search. *)
Equations? bisect_left_loop (a : list (Entry K V)) (x : Entry K V) (lo hi : nat) : nat
  by wf (hi - lo) lt :=
bisect_left_loop a x lo hi with decide (lo < hi) => {
  | right _ := lo;
  | left _ with a !! ((lo + hi) / 2) => {
    | None := lo;
    | Some e with Entry_ltb e x => {
      | true := bisect_left_loop a x ((lo + hi) / 2 + 1) hi;
      | false := bisect_left_loop a x lo ((lo + hi) / 2) } } }.
Proof.
  all: pose proof (Nat.div_mod_eq (lo + hi) 2);
    pose proof (Nat.mod_upper_bound (lo + hi) 2); lia.
Qed.

(** Modelled from the spec: the rightmost insertion position of [x] in
    [a[lo:hi]]:
    [while lo < hi: mid = (lo + hi) // 2;]
    [  if x < a[mid]: hi = mid  else: lo = mid + 1]
    [return lo]. *)
Equations? bisect_right_loop (a : list (Entry K V)) (x : Entry K V) (lo hi : nat) : nat
  by wf (hi - lo) lt :=
bisect_right_loop a x lo hi with decide (lo < hi) => {
  | right _ := lo;
  | left _ with a !! ((lo + hi) / 2) => {
    | None := lo;
    | Some e with Entry_ltb x e => {
      | true := bisect_right_loop a x lo ((lo + hi) / 2);
      | false := bisect_right_loop a x ((lo + hi) / 2 + 1) hi } } }.
Proof.
  all: pose proof (Nat.div_mod_eq (lo + hi) 2);
    pose proof (Nat.mod_upper_bound (lo + hi) 2); lia.
Qed.

(** [SortedSet()] *)
Definition empty : list (Entry K V) := [].

(** [len(s)] and [for e in s] *)
Definition len (s : list (Entry K V)) : nat := length s.

Definition iter (s : list (Entry K V)) : list (Entry K V) := s.

(** [s.bisect_left(value)] and [s.bisect_right(value)] *)
Definition bisect_left (x : Entry K V) (s : list (Entry K V)) : nat :=
  bisect_left_loop s x 0 (length s).

Definition bisect_right (x : Entry K V) (s : list (Entry K V)) : nat :=
  bisect_right_loop s x 0 (length s).

(** [value in s] *)
Definition contains (x : Entry K V) (s : list (Entry K V)) : bool :=
  existsb (Entry_eqb x) s.

(** Modelled from the spec: [s.add(value)] leaves the set alone when an equal
    element is stored and otherwise splices [value] in at its insertion
    position. *)
Definition add (x : Entry K V) (s : list (Entry K V)) : list (Entry K V) :=
  if contains x s then s
  else take (bisect_right x s) s ++ x :: drop (bisect_right x s) s.

(** Modelled from the spec: [s.remove(value)] raises [KeyError] when no equal
    element is stored and otherwise deletes the element at the position the
    leftmost search finds. *)
Definition remove (x : Entry K V) (s : list (Entry K V)) : outcome (list (Entry K V)) :=
  if contains x s then inr (delete (bisect_left x s) s)
  else inl KeyError.

(** [s[index]], with Python's indexing: a negative index counts from the end,
    an index outside the sequence raises [IndexError]. *)
Definition getitem (index : Z) (s : list (Entry K V)) : outcome (Entry K V) :=
  let i := if decide (index < 0)%Z then (index + Z.of_nat (length s))%Z else index in
  if decide (i < 0)%Z then inl IndexError
  else match s !! Z.to_nat i with
       | Some e => inr e
       | None => inl IndexError
       end.

End sorted_set.
End SortedSet.

(** ** MySortedDict.py *)

(** The state of a [MySortedDict] is its attribute [__entries]. *)
Module MySortedDict.
Section my_sorted_dict.
Context {K V : Type} `{EqDecision K} `{!PyOrd K} `{!PyNone V}.

(** [self.__entries: SortedSet[Entry[K, V]] = SortedSet()] *)
Definition __init__ : list (Entry K V) := SortedSet.empty.

(** [result = None]
    [probe = Entry(key, None)]
    [idx = self.__entries.bisect_left(probe)]
    [if idx < len(self.__entries):]
    [    entry = self.__entries[idx]]
    [    if entry.key == key: result = entry]
    [return result]
    The read [self.__entries[idx]] is guarded by [idx < len]; should it
    raise, no entry is returned. *)
Definition _get_entry (k : K) (entries : list (Entry K V)) : option (Entry K V) :=
  let probe := mkEntry k py_None in
  let idx := SortedSet.bisect_left probe entries in
  if decide (idx < SortedSet.len entries) then
    match SortedSet.getitem (Z.of_nat idx) entries with
    | inr entry => if decide (key entry = k) then Some entry else None
    | inl _ => None
    end
  else None.

(** [self.__entries.add(entry)] *)
Definition _add_entry (entry : Entry K V) (entries : list (Entry K V)) :
    list (Entry K V) :=
  SortedSet.add entry entries.

(** [self.__entries.remove(entry)] *)
Definition _remove_entry (entry : Entry K V) (entries : list (Entry K V)) :
    outcome (list (Entry K V)) :=
  SortedSet.remove entry entries.

(** [return self.__entries] *)
Definition _entries (entries : list (Entry K V)) : list (Entry K V) :=
  SortedSet.iter entries.

(** [return len(self.__entries)] *)
Definition __len__ (entries : list (Entry K V)) : nat := SortedSet.len entries.

(** [return self.__entries.bisect_left(Entry(key, None))] *)
Definition bisect_left (k : K) (entries : list (Entry K V)) : nat :=
  SortedSet.bisect_left (mkEntry k py_None) entries.

(** [return self.__entries.bisect_right(Entry(key, None))] *)
Definition bisect_right (k : K) (entries : list (Entry K V)) : nat :=
  SortedSet.bisect_right (mkEntry k py_None) entries.

(** [size = self.__len__()]
    [if ind < -size or ind >= size: raise IndexError("index out of range")]
    [entry = self.__entries[ind]]
    [return entry.key, entry.value] *)
Definition peekitem (ind : Z) : M (list (Entry K V)) (K * V) :=
  size ← reads __len__;
  if decide (ind < - Z.of_nat size ∨ ind >= Z.of_nat size)%Z then raise IndexError
  else
    entry ← attempts (SortedSet.getitem ind);
    mret (key entry, value entry).

End my_sorted_dict.
End MySortedDict.

#[global] Instance MySortedDict_BaseDict {K V : Type} `{EqDecision K} `{!PyOrd K}
    `{!PyNone V} : BaseDict K V (list (Entry K V)) := {|
  _get_entry := MySortedDict._get_entry;
  _add_entry := MySortedDict._add_entry;
  _remove_entry := MySortedDict._remove_entry;
  _entries := MySortedDict._entries
|}.

#[global] Instance MySortedDict_len {K V : Type} : PyLen (list (Entry K V)) :=
  MySortedDict.__len__.

(** ** DictCache.py *)

(** Python's [collections.OrderedDict]: the items in their order, oldest
    first, with at most one item for a key. *)
Module OrderedDict.
Section ordered_dict.
Context {K V : Type} `{EqDecision K}.

Definition has_key (k : K) (kv : K * V) : bool := bool_decide (kv.1 = k).

(** [key in od] *)
Definition contains (k : K) (od : list (K * V)) : bool := existsb (has_key k) od.

(** [od[key]]: [KeyError] for a missing key. *)
Definition getitem (k : K) (od : list (K * V)) : outcome V :=
  match find (has_key k) od with
  | Some kv => inr kv.2
  | None => inl KeyError
  end.

(** [od[key] = value]: the value of a stored key is replaced where the item
    stands, a new key is appended. *)
Definition setitem (k : K) (v : V) (od : list (K * V)) : list (K * V) :=
  if contains k od
  then (λ kv, if has_key k kv then (kv.1, v) else kv) <$> od
  else od ++ [(k, v)].

(** [od.move_to_end(key)]: the item of [key] becomes the last one;
    [KeyError] for a missing key. *)
Definition move_to_end (k : K) (od : list (K * V)) : outcome (list (K * V)) :=
  match find (has_key k) od with
  | Some kv => inr (filter (λ kv', negb (has_key k kv')) od ++ [kv])
  | None => inl KeyError
  end.

(** [od.popitem(last=False)]: removes and returns the first item;
    [KeyError] on an empty dictionary. *)
Definition popitem_first (od : list (K * V)) : outcome ((K * V) * list (K * V)) :=
  match od with
  | kv :: od' => inr (kv, od')
  | [] => inl KeyError
  end.

End ordered_dict.
End OrderedDict.

Module DictCache.
Section dict_cache.
Context {K V : Type} `{EqDecision K}.

(** A [DictCache] object: the inherited ordered dictionary and the attribute
    [maxsize], a Python [int]. *)
Record t : Type := mk { od : list (K * V); maxsize : Z }.

Definition with_od (f : list (K * V) → list (K * V)) (c : t) : t :=
  {| od := f (od c); maxsize := maxsize c |}.

Definition try_od (f : list (K * V) → outcome (list (K * V))) (c : t) : outcome t :=
  match f (od c) with
  | inr od' => inr {| od := od'; maxsize := maxsize c |}
  | inl e => inl e
  end.

(** [super().__init__(); self.maxsize = maxsize] *)
Definition __init__ (maxsize : Z) : t := {| od := []; maxsize := maxsize |}.

(** [value = super().__getitem__(key)]
    [self.move_to_end(key)]
    [return value] *)
Definition __getitem__ (k : K) : M t V :=
  value ← attempts (λ c, OrderedDict.getitem k (od c));
  tries (try_od (OrderedDict.move_to_end k));;
  mret value.

(** [self.popitem(last=False)], the popped item. *)
Definition popitem_first : M t (K * V) := λ c,
  match OrderedDict.popitem_first (od c) with
  | inr (kv, od') => (inr kv, {| od := od'; maxsize := maxsize c |})
  | inl e => (inl e, c)
  end.

(** [exists = key in self]
    [super().__setitem__(key, value)]
    [self.move_to_end(key)]
    [if not exists and len(self) > self.maxsize:]
    [    self.popitem(last=False)] *)
Definition __setitem__ (k : K) (v : V) : M t unit :=
  exists_ ← reads (λ c, OrderedDict.contains k (od c));
  writes (with_od (OrderedDict.setitem k v));;
  tries (try_od (OrderedDict.move_to_end k));;
  len ← reads (λ c, length (od c));
  maxsize ← reads maxsize;
  if negb exists_ && bool_decide (Z.of_nat len > maxsize)%Z
  then popitem_first;; mret tt
  else mret tt.

(** The reads and writes a client makes, and a program of them. *)
Inductive access : Type :=
| Read (k : K)
| Write (k : K) (v : V).

Definition access_key (a : access) : K :=
  match a with Read k => k | Write k _ => k end.

Definition do_access (a : access) (c : t) : t :=
  match a with
  | Read k => after (__getitem__ k) c
  | Write k v => after (__setitem__ k v) c
  end.

Definition do_accesses (acs : list access) (c : t) : t :=
  foldl (λ c a, do_access a c) c acs.

End dict_cache.
End DictCache.

(** ** Key and value types of the examples *)

(** Python [int] keys, ordered by [<] on the integers. *)
#[global, refine] Instance Z_PyOrd : PyOrd Z := {| py_lt := Z.ltb |}.
Proof.
  - intros x. apply Z.ltb_irrefl.
  - intros x y z ?%Z.ltb_lt ?%Z.ltb_lt. apply Z.ltb_lt. lia.
  - intros x y ?%Z.ltb_ge ?%Z.ltb_ge. lia.
Defined.

(** Python [str] keys, ordered character by character. *)
#[global, refine] Instance string_PyOrd : PyOrd string := {| py_lt := String.ltb |}.
Proof.
  - intros x. unfold String.ltb.
    pose proof (proj2 (String_as_OT.cmp_eq x x) eq_refl) as Hxx.
    unfold String_as_OT.cmp in Hxx. by rewrite Hxx.
  - intros x y z. unfold String.ltb.
    destruct (String.compare x y) eqn:Hxy; try done.
    destruct (String.compare y z) eqn:Hyz; try done. intros _ _.
    apply String_as_OT.cmp_lt in Hxy, Hyz.
    pose proof (String_as_OT.lt_trans _ _ _ Hxy Hyz) as Hxz.
    apply String_as_OT.cmp_lt in Hxz. unfold String_as_OT.cmp in Hxz.
    by rewrite Hxz.
  - intros x y. unfold String.ltb. rewrite (String.compare_antisym y x).
    destruct (String.compare x y) eqn:Hxy; try done.
    intros _ _. by apply String.compare_eq_iff.
Defined.

(** The dictionary of the tests: [d["a"] = 1; d["b"] = 2; d["c"] = 3]. *)
Definition prepared_calls : list (call (K := string) (V := option Z)) :=
  [CallSetitem "a" (Some 1%Z); CallSetitem "b" (Some 2%Z);
   CallSetitem "c" (Some 3%Z)].

Definition prepared_dict : gmap string (option Z) :=
  do_calls prepared_calls MyDict.__init__.

Definition prepared_sorted_dict : list (Entry string (option Z)) :=
  do_calls prepared_calls MySortedDict.__init__.

(** The cache of the tests: [DictCache(2)] after [cache["a"] = 1] and
    [cache["b"] = 2]. *)
Definition prepared_accesses : list (DictCache.access (K := string) (V := Z)) :=
  [DictCache.Write "a" 1%Z; DictCache.Write "b" 2%Z].

Definition prepared_cache : DictCache.t (K := string) (V := Z) :=
  DictCache.do_accesses prepared_accesses (DictCache.__init__ 2).

(** ** Vocabulary of the properties *)

(** One entry precedes another when its key is smaller. *)
Definition key_lt {K V : Type} `{EqDecision K} `{!PyOrd K} : relation (Entry K V) :=
  λ a b, py_lt (key a) (key b) = true.

(** The keys increase strictly along a sequence of entries: every entry
    precedes all the later ones. *)
Definition increasing {K V : Type} `{EqDecision K} `{!PyOrd K}
    (s : list (Entry K V)) : Prop :=
  StronglySorted key_lt s.

#[global] Instance key_lt_dec {K V : Type} `{EqDecision K} `{!PyOrd K} :
  RelDecision (key_lt (K := K) (V := V)).
Proof. intros a b. unfold key_lt. apply _. Defined.

#[global] Instance increasing_dec {K V : Type} `{EqDecision K} `{!PyOrd K}
  (s : list (Entry K V)) : Decision (increasing s).
Proof. unfold increasing. apply _. Defined.

(** The number of keys of [ks] that satisfy [p]. *)
Definition count_keys {K : Type} (p : K → bool) (ks : list K) : nat :=
  length (filter (λ k, p k = true) ks).

(** Python's [<=] on keys. *)
Definition py_le {K : Type} `{EqDecision K} `{!PyOrd K} (x y : K) : bool :=
  py_lt x y || bool_decide (x = y).

(** What the derived API of [BaseDict] relies on in a storage, on the states
    [ok] of the storage: the entries have distinct keys and [__len__] counts
    them, [_get_entry] finds the stored entry of a key, [_add_entry] of an
    entry with a new key adds that entry, and [_remove_entry] of a stored
    entry removes that entry. *)
Class Lawful {K V D : Type} `{EqDecision K} `{!BaseDict K V D} `{!PyLen D}
    (ok : D → Prop) : Prop := {
  lawful_NoDup d : ok d → NoDup (keys d);
  lawful_len d : ok d → __len__ d = length (_entries d);
  lawful_get_entry d k e :
    ok d → _get_entry k d = Some e ↔ e ∈ _entries d ∧ key e = k;
  lawful_add d e :
    ok d → key e ∉ keys d →
    ok (_add_entry e d) ∧ _entries (_add_entry e d) ≡ₚ e :: _entries d;
  lawful_remove d e :
    ok d → e ∈ _entries d →
    ∃ d', _remove_entry e d = inr d' ∧ ok d' ∧ _entries d ≡ₚ e :: _entries d'
}.

(** The items of an ordered dictionary whose key is not [k], in their
    order. *)
Definition od_others {K V : Type} `{EqDecision K} (k : K) (od : list (K * V)) :
    list (K * V) :=
  filter (λ kv, negb (OrderedDict.has_key k kv)) od.

(** The keys of a cache, least recently used first. *)
Definition cache_keys {K V : Type} (c : DictCache.t (K := K) (V := V)) : list K :=
  (DictCache.od c).*1.

(** The position, in a program of accesses, of the last access to [k]. *)
Fixpoint last_use {K V : Type} `{EqDecision K} (k : K)
    (acs : list (DictCache.access (K := K) (V := V))) : option nat :=
  match acs with
  | [] => None
  | a :: acs' =>
      match last_use k acs' with
      | Some t => Some (S t)
      | None => if decide (DictCache.access_key a = k) then Some 0 else None
      end
  end.

(** The value of the last write of [k] in a program of accesses. *)
Fixpoint last_write {K V : Type} `{EqDecision K} (k : K)
    (acs : list (DictCache.access (K := K) (V := V))) : option V :=
  match acs with
  | [] => None
  | a :: acs' =>
      match last_write k acs' with
      | Some v => Some v
      | None =>
          match a with
          | DictCache.Write k' v => if decide (k' = k) then Some v else None
          | DictCache.Read _ => None
          end
      end
  end.

(** The keys a program of accesses writes, in the order of the writes. *)
Definition written_keys {K V : Type}
    (acs : list (DictCache.access (K := K) (V := V))) : list K :=
  omap (λ a, match a with
             | DictCache.Write k _ => Some k
             | DictCache.Read _ => None
             end) acs.

(** In the program [acs], the last access to [k1] comes before the last
    access to [k2]. *)
Definition used_before {K V : Type} `{EqDecision K}
    (acs : list (DictCache.access (K := K) (V := V))) (k1 k2 : K) : Prop :=
  ∃ t1 t2, last_use k1 acs = Some t1 ∧ last_use k2 acs = Some t2 ∧ t1 < t2.

(** The keys [ks] are stored after the program [acs]: they are distinct, each
    has been accessed, and they stand in the order of their last accesses. *)
Definition recency {K V : Type} `{EqDecision K}
    (acs : list (DictCache.access (K := K) (V := V))) (ks : list K) : Prop :=
  NoDup ks ∧ (∀ k, k ∈ ks → is_Some (last_use k acs)) ∧
  StronglySorted (used_before acs) ks.

(** * Properties *)

(** Running a method: unfold the monad down to the storage operations. *)
(** Unfolding the storage methods of the two dictionaries down to the
    operations of the containers. *)
Ltac unfold_MyDict :=
  simpl in *; unfold MyDict._add_entry, MyDict._remove_entry, MyDict._entries,
    MyDict.__len__, PySet.len in *.

Ltac unfold_MySortedDict :=
  simpl in *; unfold MySortedDict._add_entry, MySortedDict._remove_entry,
    MySortedDict._entries, MySortedDict.__len__, SortedSet.len, SortedSet.iter in *.

Ltac run_method :=
  unfold result, after, mbind, mret, M_bind, M_ret, raise, reads, writes,
    tries, attempts; simpl.

(** ** Order of entries *)

Section entry_order.
Context {K V : Type} `{EqDecision K} `{!PyOrd K}.

Lemma Entry_ltb_py_lt (a b : Entry K V) : Entry_ltb a b = py_lt (key a) (key b).
Proof.
  unfold Entry_ltb. destruct (decide (key a = key b)) as [->|]; [|done].
  by rewrite py_lt_irrefl.
Qed.

Lemma py_lt_asym (x y : K) : py_lt x y = true → py_lt y x = false.
Proof.
  intros Hxy. destruct (py_lt y x) eqn:Hyx; [|done].
  by rewrite <-(py_lt_irrefl x), (py_lt_trans x y x).
Qed.

Lemma py_lt_ne (x y : K) : py_lt x y = true → x ≠ y.
Proof. intros Hxy ->. by rewrite py_lt_irrefl in Hxy. Qed.

Lemma py_lt_trichotomy (x y : K) :
  py_lt x y = true ∨ x = y ∨ py_lt y x = true.
Proof.
  destruct (py_lt x y) eqn:Hxy; [by left|].
  destruct (py_lt y x) eqn:Hyx; [by right; right|].
  right; left. by apply py_lt_total.
Qed.

(** [x <= y] on keys, as [not (y < x)]. *)
Lemma py_le_lt_trans (x y z : K) :
  py_lt y x = false → py_lt y z = true → py_lt x z = true.
Proof.
  intros Hyx Hyz. destruct (py_lt_trichotomy x y) as [?|[->|?]];
    [by eapply py_lt_trans|done|congruence].
Qed.

Lemma py_lt_le_trans (x y z : K) :
  py_lt x y = true → py_lt z y = false → py_lt x z = true.
Proof.
  intros Hxy Hzy. destruct (py_lt_trichotomy y z) as [?|[<-|?]];
    [by eapply py_lt_trans|done|congruence].
Qed.

End entry_order.

(** ** Sorted sequences and the binary searches *)

Section sorted_set_facts.
Context {K V : Type} `{EqDecision K} `{!PyOrd K}.
Implicit Types (s a : list (Entry K V)) (x y e : Entry K V).

Lemma increasing_lookup s i j x y :
  increasing s → i < j → s !! i = Some x → s !! j = Some y → key_lt x y.
Proof.
  unfold increasing. intros Hs Hij Hi Hj.
  rewrite <-(take_drop j s) in Hs.
  eapply StronglySorted_app_1_elem_of; [exact Hs|..].
  - apply elem_of_take. eauto.
  - apply list_elem_of_lookup. exists 0. by rewrite lookup_drop, Nat.add_0_r.
Qed.

Lemma increasing_lookup_inv s :
  (∀ i j x y, i < j → s !! i = Some x → s !! j = Some y → key_lt x y) →
  increasing s.
Proof.
  unfold increasing. induction s as [|x s IH]; intros Hs; constructor.
  - apply IH. intros i j y z Hij Hi Hj. by apply (Hs (S i) (S j)); [lia|..].
  - apply Forall_forall. intros b [j Hj]%list_elem_of_lookup.
    by apply (Hs 0 (S j)); [lia|..].
Qed.

Lemma midpoint_bounds lo hi : lo < hi → lo ≤ (lo + hi) / 2 < hi.
Proof.
  intros. pose proof (Nat.div_mod_eq (lo + hi) 2).
  pose proof (Nat.mod_upper_bound (lo + hi) 2). lia.
Qed.

(** The loop of the leftmost search keeps the entries before [lo] below [x]
    and the entries from [hi] on not below [x]. *)
Lemma bisect_left_loop_spec a x lo hi :
  increasing a → lo ≤ hi ≤ length a →
  (∀ i e, i < lo → a !! i = Some e → Entry_ltb e x = true) →
  (∀ i e, hi ≤ i → a !! i = Some e → Entry_ltb e x = false) →
  lo ≤ SortedSet.bisect_left_loop a x lo hi ≤ hi ∧
  (∀ i e, i < SortedSet.bisect_left_loop a x lo hi → a !! i = Some e →
     Entry_ltb e x = true) ∧
  (∀ i e, SortedSet.bisect_left_loop a x lo hi ≤ i → a !! i = Some e →
     Entry_ltb e x = false).
Proof.
  intros Ha. funelim (SortedSet.bisect_left_loop a x lo hi); intros Hb Hlo Hhi;
    try match goal with Hl : lo < hi |- _ =>
          pose proof (midpoint_bounds lo hi Hl) as Hmid end.
  - (* the loop is over *)
    split_and!; [lia|lia|done|]. intros i e Hi. apply Hhi. lia.
  - (* a[mid] is read inside the sequence *)
    match goal with Hn : _ !! _ = None |- _ => apply lookup_ge_None in Hn end.
    lia.
  - (* a[mid] < x *)
    match goal with IH : increasing _ → _, Hm : _ !! _ = Some ?m,
                    Hlt : Entry_ltb ?m _ = true |- _ =>
      destruct IH as (? & ? & ?); [done|lia| |done|]
    end.
    + intros i e' Hi He'.
      destruct (decide (i = (lo + hi) / 2)) as [->|]; [congruence|].
      rewrite Entry_ltb_py_lt in *. eapply py_lt_trans; [|done].
      eapply (increasing_lookup a i ((lo + hi) / 2)); [done|lia|done..].
    + split_and!; [lia|lia|done..].
  - (* not (a[mid] < x) *)
    match goal with IH : increasing _ → _, Hm : _ !! _ = Some ?m,
                    Hlt : Entry_ltb ?m _ = false |- _ =>
      destruct IH as (? & ? & ?); [done|lia|done| |]
    end.
    + intros i e' Hi He'.
      destruct (decide (i = (lo + hi) / 2)) as [->|]; [congruence|].
      rewrite Entry_ltb_py_lt in *.
      destruct (py_lt (key e') (key x)) eqn:Hlt; [|done].
      match goal with Hf : py_lt _ _ = false |- _ => rewrite <-Hf end.
      symmetry. eapply py_lt_trans; [|done].
      eapply (increasing_lookup a ((lo + hi) / 2) i); [done|lia|done..].
    + split_and!; [lia|lia|done..].
Qed.

(** The loop of the rightmost search keeps the entries before [lo] not above
    [x] and the entries from [hi] on above [x]. *)
Lemma bisect_right_loop_spec a x lo hi :
  increasing a → lo ≤ hi ≤ length a →
  (∀ i e, i < lo → a !! i = Some e → Entry_ltb x e = false) →
  (∀ i e, hi ≤ i → a !! i = Some e → Entry_ltb x e = true) →
  lo ≤ SortedSet.bisect_right_loop a x lo hi ≤ hi ∧
  (∀ i e, i < SortedSet.bisect_right_loop a x lo hi → a !! i = Some e →
     Entry_ltb x e = false) ∧
  (∀ i e, SortedSet.bisect_right_loop a x lo hi ≤ i → a !! i = Some e →
     Entry_ltb x e = true).
Proof.
  intros Ha. funelim (SortedSet.bisect_right_loop a x lo hi); intros Hb Hlo Hhi;
    try match goal with Hl : lo < hi |- _ =>
          pose proof (midpoint_bounds lo hi Hl) as Hmid end.
  - split_and!; [lia|lia|done|]. intros i e Hi. apply Hhi. lia.
  - match goal with Hn : _ !! _ = None |- _ => apply lookup_ge_None in Hn end.
    lia.
  - (* x < a[mid] *)
    match goal with IH : increasing _ → _, Hm : _ !! _ = Some ?m,
                    Hlt : Entry_ltb _ ?m = true |- _ =>
      destruct IH as (? & ? & ?); [done|lia|done| |]
    end.
    + intros i e' Hi He'.
      destruct (decide (i = (lo + hi) / 2)) as [->|]; [congruence|].
      rewrite Entry_ltb_py_lt in *. eapply py_lt_trans; [done|].
      eapply (increasing_lookup a ((lo + hi) / 2) i); [done|lia|done..].
    + split_and!; [lia|lia|done..].
  - (* not (x < a[mid]) *)
    match goal with IH : increasing _ → _, Hm : _ !! _ = Some ?m,
                    Hlt : Entry_ltb _ ?m = false |- _ =>
      destruct IH as (? & ? & ?); [done|lia| |done|]
    end.
    + intros i e' Hi He'.
      destruct (decide (i = (lo + hi) / 2)) as [->|]; [congruence|].
      rewrite Entry_ltb_py_lt in *.
      destruct (py_lt (key x) (key e')) eqn:Hlt; [|done].
      match goal with Hf : py_lt _ _ = false |- _ => rewrite <-Hf end.
      symmetry. eapply py_lt_trans; [done|].
      eapply (increasing_lookup a i ((lo + hi) / 2)); [done|lia|done..].
    + split_and!; [lia|lia|done..].
Qed.

(** A position that splits a sequence into the entries that satisfy a test
    and those that do not counts the former. *)
Lemma split_point_count (p : Entry K V → bool) s r :
  r ≤ length s →
  (∀ i e, i < r → s !! i = Some e → p e = true) →
  (∀ i e, r ≤ i → s !! i = Some e → p e = false) →
  length (filter (λ e, p e = true) s) = r.
Proof.
  revert r. induction s as [|y s IH]; intros r Hr Hlt Hge; simpl in *.
  { lia. }
  destruct r as [|r].
  - rewrite filter_cons_False by (rewrite (Hge 0 y); [done|lia|done]).
    apply IH; [lia|intros; lia|]. intros i e _ ?. by apply (Hge (S i)); [lia|].
  - rewrite filter_cons_True by (apply (Hlt 0); [lia|done]). simpl. f_equal.
    apply IH; [lia|..].
    + intros i e ? ?. by apply (Hlt (S i)); [lia|].
    + intros i e ? ?. by apply (Hge (S i)); [lia|].
Qed.

Lemma bisect_left_spec x s :
  increasing s →
  SortedSet.bisect_left x s ≤ length s ∧
  (∀ i e, i < SortedSet.bisect_left x s → s !! i = Some e →
     py_lt (key e) (key x) = true) ∧
  (∀ i e, SortedSet.bisect_left x s ≤ i → s !! i = Some e →
     py_lt (key e) (key x) = false).
Proof.
  intros Hs. unfold SortedSet.bisect_left.
  destruct (bisect_left_loop_spec s x 0 (length s)) as (? & Hlt & Hge);
    [done|lia|intros; lia|..].
  { intros i e ? ?%lookup_lt_Some. lia. }
  split_and!; [lia|..]; intros i e ??; rewrite <-Entry_ltb_py_lt; eauto.
Qed.

Lemma bisect_right_spec x s :
  increasing s →
  SortedSet.bisect_right x s ≤ length s ∧
  (∀ i e, i < SortedSet.bisect_right x s → s !! i = Some e →
     py_lt (key x) (key e) = false) ∧
  (∀ i e, SortedSet.bisect_right x s ≤ i → s !! i = Some e →
     py_lt (key x) (key e) = true).
Proof.
  intros Hs. unfold SortedSet.bisect_right.
  destruct (bisect_right_loop_spec s x 0 (length s)) as (? & Hlt & Hge);
    [done|lia|intros; lia|..].
  { intros i e ? ?%lookup_lt_Some. lia. }
  split_and!; [lia|..]; intros i e ??; rewrite <-Entry_ltb_py_lt; eauto.
Qed.

Lemma count_keys_fmap (p : K → bool) s :
  count_keys p (key <$> s) = length (filter (λ e, p (key e) = true) s).
Proof.
  unfold count_keys. induction s as [|y s IH]; [done|]. rewrite fmap_cons.
  destruct (p (key y)) eqn:Hp.
  - rewrite !filter_cons_True by done. simpl. by f_equal.
  - rewrite !filter_cons_False by (by rewrite Hp). done.
Qed.

Lemma bisect_left_count x s :
  increasing s →
  SortedSet.bisect_left x s = count_keys (λ k, py_lt k (key x)) (key <$> s).
Proof.
  intros (? & ? & ?)%(bisect_left_spec x). rewrite count_keys_fmap.
  symmetry. by apply (split_point_count (λ e, py_lt (key e) (key x))).
Qed.

Lemma bisect_right_count x s :
  increasing s →
  SortedSet.bisect_right x s =
  count_keys (λ k, negb (py_lt (key x) k)) (key <$> s).
Proof.
  intros (? & Hlt & Hge)%(bisect_right_spec x). rewrite count_keys_fmap.
  symmetry. apply (split_point_count (λ e, negb (py_lt (key x) (key e)))); [done|..].
  - intros i e ??. by rewrite (Hlt i e).
  - intros i e ??. by rewrite (Hge i e).
Qed.

Lemma contains_true x s :
  SortedSet.contains x s = true ↔ ∃ e, e ∈ s ∧ key e = key x.
Proof.
  unfold SortedSet.contains. rewrite existsb_exists. split.
  - intros (e & He%list_elem_of_In & Heq). exists e. split; [done|].
    unfold Entry_eqb in Heq. by apply bool_decide_eq_true in Heq.
  - intros (e & He%list_elem_of_In & Heq). exists e. split; [done|].
    by apply bool_decide_eq_true.
Qed.

Lemma contains_false x s :
  SortedSet.contains x s = false ↔ ∀ e, e ∈ s → key e ≠ key x.
Proof.
  rewrite <-not_true_iff_false, contains_true. split.
  - intros Hn e ??. apply Hn. by exists e.
  - intros Hn (e & ? & ?). by apply (Hn e).
Qed.

Lemma getitem_nat i s :
  SortedSet.getitem (Z.of_nat i) s =
  match s !! i with Some e => inr e | None => inl IndexError end.
Proof.
  unfold SortedSet.getitem. destruct (decide (Z.of_nat i < 0)%Z); [lia|].
  simpl. destruct (decide (Z.of_nat i < 0)%Z); [lia|]. by rewrite Nat2Z.id.
Qed.

(** The leftmost search finds the entry of a stored key. *)
Lemma bisect_left_stored x s i e :
  increasing s → s !! i = Some e → key e = key x →
  SortedSet.bisect_left x s = i.
Proof.
  intros Hs Hi Hk. destruct (bisect_left_spec x s Hs) as (Hle & Hlt & Hge).
  destruct (Nat.lt_trichotomy (SortedSet.bisect_left x s) i) as [Hc|[Hc|Hc]];
    [|done|].
  - destruct (lookup_lt_is_Some_2 s (SortedSet.bisect_left x s)) as [e' He'];
      [apply lookup_lt_Some in Hi; lia|].
    pose proof (increasing_lookup _ _ _ _ _ Hs Hc He' Hi) as Hlt'.
    unfold key_lt in Hlt'. rewrite Hk in Hlt'.
    by rewrite (Hge (SortedSet.bisect_left x s) e') in Hlt'.
  - specialize (Hlt i e Hc Hi). by rewrite Hk, py_lt_irrefl in Hlt.
Qed.

Lemma increasing_NoDup s : increasing s → NoDup (key <$> s).
Proof.
  intros Hs. apply NoDup_alt. intros i j k.
  rewrite !list_lookup_fmap_Some. intros (x & -> & Hx) (y & Heq & Hy).
  destruct (Nat.lt_trichotomy i j) as [Hc|[Hc|Hc]]; [|done|].
  - pose proof (increasing_lookup _ _ _ _ _ Hs Hc Hx Hy) as Hlt.
    unfold key_lt in Hlt. by rewrite Heq, py_lt_irrefl in Hlt.
  - pose proof (increasing_lookup _ _ _ _ _ Hs Hc Hy Hx) as Hlt.
    unfold key_lt in Hlt. by rewrite Heq, py_lt_irrefl in Hlt.
Qed.

Lemma increasing_sublist s1 s2 : s1 `sublist_of` s2 → increasing s2 → increasing s1.
Proof.
  unfold increasing. induction 1 as [|x s1 s2 ? IH|x s1 s2 ? IH].
  - done.
  - rewrite !StronglySorted_cons, !Forall_forall. intros [Hx Hs]. split; [|auto].
    intros y Hy. apply Hx. by eapply elem_of_sublist.
  - rewrite StronglySorted_cons. intros [_ ?]. auto.
Qed.

(** Adding a new entry splices it in between the smaller and the larger
    keys. *)
Lemma add_increasing x s : increasing s → increasing (SortedSet.add x s).
Proof.
  intros Hs. unfold SortedSet.add.
  destruct (SortedSet.contains x s) eqn:Hc; [done|].
  destruct (bisect_right_spec x s Hs) as (Hle & Hlt & Hge).
  rewrite contains_false in Hc.
  assert (∀ e, e ∈ take (SortedSet.bisect_right x s) s → key_lt e x) as Hbelow.
  { intros e Htake. apply elem_of_take in Htake as (i & Hi & ?). unfold key_lt.
    destruct (py_lt_trichotomy (key e) (key x)) as [?|[Heq|Hgt]]; [done|..].
    - destruct (Hc e); [by eapply list_elem_of_lookup_2|done].
    - by rewrite (Hlt i e) in Hgt. }
  assert (∀ e, e ∈ drop (SortedSet.bisect_right x s) s → key_lt x e) as Habove.
  { intros e [i Hi]%list_elem_of_lookup. rewrite lookup_drop in Hi.
    apply (Hge (SortedSet.bisect_right x s + i)); [lia|done]. }
  apply StronglySorted_app_2.
  - intros e1 e2 He1 [->|He2]%elem_of_cons; [by apply Hbelow|].
    unfold key_lt. eapply py_lt_trans; [by apply Hbelow|by apply Habove].
  - eapply increasing_sublist; [apply sublist_take|done].
  - constructor.
    + eapply increasing_sublist; [apply sublist_drop|done].
    + by apply Forall_forall.
Qed.

Lemma add_Permutation x s :
  SortedSet.contains x s = false → SortedSet.add x s ≡ₚ x :: s.
Proof.
  intros Hc. unfold SortedSet.add. rewrite Hc.
  by rewrite <-Permutation_middle, take_drop.
Qed.

Lemma add_stored x s : SortedSet.contains x s = true → SortedSet.add x s = s.
Proof. intros Hc. unfold SortedSet.add. by rewrite Hc. Qed.

(** Removing a stored entry deletes the entry of its key. *)
Lemma remove_stored x s :
  increasing s → SortedSet.contains x s = true →
  ∃ e s', SortedSet.remove x s = inr s' ∧ key e = key x ∧ e ∈ s ∧
          increasing s' ∧ s ≡ₚ e :: s'.
Proof.
  intros Hs Hc. unfold SortedSet.remove. rewrite Hc.
  apply contains_true in Hc as (e & [i Hi]%list_elem_of_lookup & Hk).
  exists e, (delete (SortedSet.bisect_left x s) s).
  rewrite (bisect_left_stored x s i e) by done.
  split_and!; [done|done|by eapply list_elem_of_lookup_2| |].
  - eapply increasing_sublist; [apply sublist_delete|done].
  - by apply delete_Permutation.
Qed.

Lemma remove_missing x s :
  SortedSet.contains x s = false → SortedSet.remove x s = inl KeyError.
Proof. intros Hc. unfold SortedSet.remove. by rewrite Hc. Qed.

End sorted_set_facts.

(** ** The derived API over a lawful storage *)

Section lawful.
Context {K V D : Type} `{EqDecision K} `{!BaseDict K V D} `{!PyLen D}.
Context (ok : D → Prop) `{!Lawful ok}.
Implicit Types (d : D) (k : K) (v : V) (e : Entry K V).

Lemma get_entry_None d k : ok d → _get_entry k d = None ↔ k ∉ keys d.
Proof.
  intros Hd. unfold keys. rewrite list_elem_of_fmap. split.
  - intros Hn (e & -> & He).
    assert (_get_entry (key e) d = Some e) as Hs by (by apply lawful_get_entry).
    congruence.
  - intros Hn. destruct (_get_entry k d) as [e|] eqn:He; [|done].
    apply lawful_get_entry in He as [? <-]; [|done]. destruct Hn. by exists e.
Qed.

Lemma get_entry_stored d k v :
  ok d → (k, v) ∈ items d → _get_entry k d = Some (mkEntry k v).
Proof.
  intros Hd (e & [= -> ->] & He)%list_elem_of_fmap.
  apply lawful_get_entry; [done|]. by destruct e.
Qed.

Lemma get_entry_items d k e :
  ok d → _get_entry k d = Some e → (k, value e) ∈ items d.
Proof.
  intros Hd [He <-]%lawful_get_entry; [|done].
  apply list_elem_of_fmap. by exists e.
Qed.

(** Two stored entries with the same key are the same entry. *)
Lemma entries_key_inj d e1 e2 :
  ok d → e1 ∈ _entries d → e2 ∈ _entries d → key e1 = key e2 → e1 = e2.
Proof.
  intros Hd H1 H2 Hk.
  assert (_get_entry (key e1) d = Some e1) as Hg1 by (by apply lawful_get_entry).
  assert (_get_entry (key e1) d = Some e2) as Hg2 by (by apply lawful_get_entry).
  congruence.
Qed.

Lemma filter_other_keys_missing d k :
  k ∉ keys d → filter (λ e, key e ≠ k) (_entries d) = _entries d.
Proof.
  unfold keys. induction (_entries d) as [|e l IH]; [done|].
  rewrite fmap_cons, not_elem_of_cons. intros [? ?].
  rewrite filter_cons_True by done. f_equal. auto.
Qed.

Lemma filter_other_keys_stored (l l' : list (Entry K V)) e :
  NoDup (key <$> l) → l ≡ₚ e :: l' → filter (λ e', key e' ≠ key e) l ≡ₚ l'.
Proof.
  intros Hnd Hp. rewrite Hp in Hnd |- *. rewrite fmap_cons in Hnd.
  apply NoDup_cons in Hnd as [Hnotin _].
  rewrite filter_cons_False by naive_solver.
  clear Hp. induction l' as [|e' l' IH]; [done|].
  rewrite fmap_cons, not_elem_of_cons in Hnotin. destruct Hnotin.
  rewrite filter_cons_True by done. f_equal. auto.
Qed.

(** [__setitem__] replaces the entry of the key by the new entry and keeps
    the other entries. *)
Lemma setitem_spec d k v :
  ok d →
  ∃ d', __setitem__ k v d = (inr tt, d') ∧ ok d' ∧
        _entries d' ≡ₚ mkEntry k v :: filter (λ e, key e ≠ k) (_entries d).
Proof.
  intros Hd. unfold __setitem__. run_method.
  destruct (_get_entry k d) as [e|] eqn:He.
  - apply lawful_get_entry in He as [He <-]; [|done].
    destruct (lawful_remove d e Hd He) as (d' & -> & Hd' & Hp).
    assert (key e ∉ keys d') as Hnotin.
    { pose proof (lawful_NoDup d Hd) as Hnd. unfold keys in *.
      rewrite Hp, fmap_cons in Hnd. by apply NoDup_cons in Hnd as [? _]. }
    destruct (lawful_add d' (mkEntry (key e) v) Hd' Hnotin) as [? Hp'].
    eexists. split_and!; [done..|]. rewrite Hp'. apply perm_skip.
    symmetry. apply filter_other_keys_stored; [by apply lawful_NoDup|done].
  - apply get_entry_None in He; [|done].
    destruct (lawful_add d (mkEntry k v) Hd He) as [? Hp'].
    eexists. split_and!; [done..|]. by rewrite filter_other_keys_missing.
Qed.

Lemma update_setitem k v : update k v = __setitem__ k v.
Proof. reflexivity. Qed.

Lemma getitem_stored d k e :
  _get_entry k d = Some e → __getitem__ k d = (inr (value e), d).
Proof. intros He. unfold __getitem__. run_method. by rewrite He. Qed.

Lemma getitem_missing d k :
  _get_entry k d = None → __getitem__ k d = (inl KeyError, d).
Proof. intros He. unfold __getitem__. run_method. by rewrite He. Qed.

Lemma get_stored d k e default :
  _get_entry k d = Some e → get k default d = (inr (value e), d).
Proof. intros He. unfold get. run_method. by rewrite He. Qed.

Lemma get_missing d k default :
  _get_entry k d = None → get k default d = (inr default, d).
Proof. intros He. unfold get. run_method. by rewrite He. Qed.

(** [setdefault] of a stored key changes nothing; of a missing key it adds
    the entry of the default. *)
Lemma setdefault_stored d k e default :
  _get_entry k d = Some e → setdefault k default d = (inr (value e), d).
Proof. intros He. unfold setdefault. run_method. by rewrite He. Qed.

Lemma setdefault_missing d k default :
  ok d → _get_entry k d = None →
  ∃ d', setdefault k default d = (inr default, d') ∧ ok d' ∧
        _entries d' ≡ₚ mkEntry k default :: _entries d.
Proof.
  intros Hd He. unfold setdefault. run_method. rewrite He.
  apply get_entry_None in He; [|done].
  destruct (lawful_add d (mkEntry k default) Hd He) as [? Hp'].
  eexists. by split_and!.
Qed.

(** [pop] of a stored key removes its entry; of a missing key it changes
    nothing. *)
Lemma pop_stored d k e default :
  ok d → _get_entry k d = Some e →
  ∃ d', pop k default d = (inr (value e), d') ∧ ok d' ∧
        _entries d ≡ₚ e :: _entries d'.
Proof.
  intros Hd He. unfold pop. run_method. rewrite He.
  apply lawful_get_entry in He as [He <-]; [|done].
  destruct (lawful_remove d e Hd He) as (d' & -> & Hd' & Hp).
  eexists. by split_and!.
Qed.

Lemma pop_missing d k default :
  _get_entry k d = None →
  pop k default d =
  (match default with Some v => inr v | None => inl KeyError end, d).
Proof. intros He. unfold pop. run_method. rewrite He. by destruct default. Qed.

(** Every call keeps the storage in its good states. *)
Lemma do_call_ok c d : ok d → ok (do_call c d).
Proof.
  intros Hd. destruct c as [k v|k|k default|k default|k default|k v]; simpl.
  - destruct (setitem_spec d k v Hd) as (d' & Heq & ? & _).
    unfold after. by rewrite Heq.
  - unfold after. destruct (_get_entry k d) eqn:He.
    + by erewrite getitem_stored.
    + by erewrite getitem_missing.
  - unfold after. destruct (_get_entry k d) eqn:He.
    + by erewrite get_stored.
    + by erewrite get_missing.
  - unfold after. destruct (_get_entry k d) eqn:He.
    + by erewrite setdefault_stored.
    + destruct (setdefault_missing d k default Hd He) as (d' & Heq & ? & _).
      by rewrite Heq.
  - unfold after. destruct (_get_entry k d) eqn:He.
    + destruct (pop_stored d k _ default Hd He) as (d' & Heq & ? & _).
      by rewrite Heq.
    + by rewrite pop_missing.
  - destruct (setitem_spec d k v Hd) as (d' & Heq & ? & _).
    unfold after. by rewrite update_setitem, Heq.
Qed.

Lemma do_calls_ok cs d : ok d → ok (do_calls cs d).
Proof.
  revert d. induction cs as [|c cs IH]; intros d Hd; [done|].
  simpl. apply IH. by apply do_call_ok.
Qed.

End lawful.

(** ** MyDict is a lawful storage *)

Section my_dict_facts.
Context {K V : Type} `{Countable K} `{!PyNone V}.
Implicit Types (m : gmap K V) (k : K) (v : V) (e : Entry K V).

Lemma elem_of_set_iter m e : e ∈ PySet.iter m ↔ m !! key e = Some (value e).
Proof.
  unfold PySet.iter. rewrite list_elem_of_fmap. split.
  - intros ([k v] & -> & Hkv). by apply elem_of_map_to_list in Hkv.
  - intros He. exists (key e, value e). split; [by destruct e|].
    by apply elem_of_map_to_list.
Qed.

Lemma set_contains_true e m :
  PySet.contains e m = true ↔ is_Some (m !! key e).
Proof. unfold PySet.contains. apply bool_decide_eq_true. Qed.

Lemma set_contains_false e m :
  PySet.contains e m = false ↔ m !! key e = None.
Proof.
  unfold PySet.contains. rewrite bool_decide_eq_false.
  by rewrite eq_None_not_Some.
Qed.

Lemma MyDict_keys m : keys m = (map_to_list m).*1.
Proof.
  unfold keys. unfold_MyDict. unfold PySet.iter.
  rewrite <-list_fmap_compose. by apply list_fmap_ext.
Qed.

(** The scan of [_get_entry] returns the stored entry of the key. *)
Lemma MyDict_get_entry m k :
  MyDict._get_entry k m = mkEntry k <$> m !! k.
Proof.
  unfold MyDict._get_entry.
  destruct (PySet.contains _ m) eqn:Hc; simpl in Hc.
  - apply set_contains_true in Hc as [v Hv]. simpl in Hv. rewrite Hv. simpl.
    destruct (find _ _) as [e|] eqn:Hf.
    + apply find_some in Hf as [He%list_elem_of_In Hk].
      apply bool_decide_eq_true in Hk. simpl in Hk.
      apply elem_of_set_iter in He. destruct e as [k' v']. simpl in *.
      congruence.
    + eapply find_none in Hf;
        [|apply list_elem_of_In, (elem_of_set_iter m (mkEntry k v)); done].
      by apply bool_decide_eq_false in Hf.
  - apply set_contains_false in Hc. simpl in Hc. by rewrite Hc.
Qed.

#[global] Instance MyDict_Lawful : Lawful (D := gmap K V) (λ _, True).
Proof.
  split.
  - intros m _. rewrite MyDict_keys. apply NoDup_fst_map_to_list.
  - intros m _. unfold __len__, MyDict_len. unfold_MyDict.
    unfold PySet.iter. by rewrite length_fmap, length_map_to_list.
  - intros m k e _. unfold_MyDict. rewrite MyDict_get_entry, elem_of_set_iter.
    destruct e as [k' v']. simpl. destruct (m !! k) as [v|] eqn:Hk; simpl.
    + split; [by intros [= <- <-]|]. intros [? <-]. congruence.
    + split; [done|]. intros [? <-]. congruence.
  - intros m e _ Hnotin. split; [done|]. unfold_MyDict.
    assert (m !! key e = None) as Hnone.
    { apply eq_None_not_Some. intros [v Hv]. apply Hnotin.
      rewrite MyDict_keys. apply list_elem_of_fmap. exists (key e, v).
      split; [done|]. by apply elem_of_map_to_list. }
    unfold PySet.add.
    rewrite (proj2 (set_contains_false e m)) by done.
    unfold PySet.iter. rewrite map_to_list_insert by done.
    rewrite fmap_cons. by destruct e.
  - intros m e _ He. unfold_MyDict. apply elem_of_set_iter in He.
    exists (delete (key e) m). unfold PySet.remove.
    rewrite (proj2 (set_contains_true e m)) by eauto.
    split_and!; [done..|]. unfold PySet.iter.
    rewrite <-(map_to_list_delete m (key e) (value e)) by done.
    rewrite fmap_cons. by destruct e.
Qed.

End my_dict_facts.

(** ** MySortedDict is a lawful storage *)

Section my_sorted_dict_facts.
Context {K V : Type} `{EqDecision K} `{!PyOrd K} `{!PyNone V}.
Implicit Types (s : list (Entry K V)) (k : K) (v : V) (e : Entry K V).

(** The search of [_get_entry] returns the stored entry of the key. *)
Lemma MySortedDict_get_entry s k e :
  increasing s → MySortedDict._get_entry k s = Some e ↔ e ∈ s ∧ key e = k.
Proof.
  intros Hs. unfold MySortedDict._get_entry. split.
  - destruct (decide _) as [Hlt|]; [|done]. rewrite getitem_nat.
    destruct (s !! _) as [e'|] eqn:He'; [|done].
    destruct (decide (key e' = k)); [|done]. intros [= <-].
    split; [by eapply list_elem_of_lookup_2|done].
  - intros [[i Hi]%list_elem_of_lookup Hk].
    rewrite (bisect_left_stored (mkEntry k py_None) s i e) by done.
    rewrite decide_True by (by eapply lookup_lt_Some).
    rewrite getitem_nat, Hi. by rewrite decide_True.
Qed.

Lemma contains_keys e s : SortedSet.contains e s = false ↔ key e ∉ key <$> s.
Proof.
  rewrite contains_false, list_elem_of_fmap. split.
  - intros Hn (e' & Heq & He'). by apply (Hn e').
  - intros Hn e' He' Heq. apply Hn. by exists e'.
Qed.

#[global] Instance MySortedDict_Lawful : Lawful (D := list (Entry K V)) increasing.
Proof.
  split.
  - intros s Hs. by apply increasing_NoDup.
  - done.
  - intros s k e Hs. by apply MySortedDict_get_entry.
  - intros s e Hs Hnotin. unfold_MySortedDict.
    split; [by apply add_increasing|]. by apply add_Permutation, contains_keys.
  - intros s e Hs He. unfold_MySortedDict.
    destruct (remove_stored e s Hs) as (e' & s' & Hr & Hk & He' & Hs' & Hp).
    { apply contains_true. by exists e. }
    exists s'. split_and!; [done..|].
    assert (e' = e) as ->; [|done].
    pose proof (increasing_NoDup s Hs) as Hnd.
    apply list_elem_of_lookup in He as [i Hi], He' as [j Hj].
    assert (i = j) as ->; [|congruence].
    eapply NoDup_lookup; [done|..]; rewrite list_lookup_fmap.
    + by rewrite Hi.
    + rewrite Hj. simpl. by f_equal.
Qed.

End my_sorted_dict_facts.

(** ** Replacement, errors and defaults over a lawful storage *)

Section lawful_api.
Context {K V D : Type} `{EqDecision K} `{!BaseDict K V D} `{!PyLen D}.
Context (ok : D → Prop) `{!Lawful ok}.
Implicit Types (d : D) (k : K) (v : V) (e : Entry K V).

Lemma elem_of_items d k v : (k, v) ∈ items d ↔ mkEntry k v ∈ _entries d.
Proof.
  unfold items. rewrite list_elem_of_fmap. split.
  - intros ([k' v'] & [= -> ->] & ?). done.
  - intros ?. by exists (mkEntry k v).
Qed.

Lemma elem_of_keys d k : k ∈ keys d ↔ ∃ v, (k, v) ∈ items d.
Proof.
  unfold keys, items. rewrite list_elem_of_fmap. split.
  - intros (e & -> & He). exists (value e). apply list_elem_of_fmap. by exists e.
  - intros (v & (e & [= -> ->] & He)%list_elem_of_fmap). by exists e.
Qed.

Lemma items_Permutation d d' (l : list (Entry K V)) :
  _entries d' ≡ₚ l → items d' ≡ₚ (λ e, (key e, value e)) <$> l.
Proof. unfold items. by intros ->. Qed.

Lemma setitem_get d k v default :
  ok d →
  result (__setitem__ k v) d = inr tt ∧
  ok (after (__setitem__ k v) d) ∧
  result (get k default) (after (__setitem__ k v) d) = inr v ∧
  __len__ (after (__setitem__ k v) d) =
    S (length (filter (λ e, key e ≠ k) (_entries d))).
Proof.
  intros Hd. destruct (setitem_spec ok d k v Hd) as (d' & Heq & Hd' & Hp).
  unfold result, after. rewrite Heq. cbn [fst snd]. split_and!; [done..| |].
  - erewrite (get_stored d' k (mkEntry k v)); [done|].
    apply lawful_get_entry; [done|]. split; [|done]. rewrite Hp. left.
  - rewrite lawful_len by done. by rewrite Hp.
Qed.

(** Writing a key twice: the second value is read, the length is kept. *)
Lemma replace_lawful d k v1 v2 default :
  ok d →
  let d1 := after (__setitem__ k v1) d in
  let d2 := after (__setitem__ k v2) d1 in
  result (get k default) d1 = inr v1 ∧
  result (get k default) d2 = inr v2 ∧
  __len__ d2 = __len__ d1.
Proof.
  intros Hd d1 d2.
  destruct (setitem_get d k v1 default Hd) as (_ & Hd1 & Hg1 & Hl1).
  destruct (setitem_get d1 k v2 default Hd1) as (_ & Hd2 & Hg2 & Hl2).
  split_and!; [done..|]. fold d1 in Hl1. fold d2 in Hl2. rewrite Hl1, Hl2.
  f_equal. destruct (setitem_spec ok d k v1 Hd) as (d' & Heq & _ & Hp).
  subst d1. unfold after. rewrite Heq. simpl. rewrite Hp.
  rewrite filter_cons_False by naive_solver.
  by rewrite list_filter_filter_l.
Qed.

(** [KeyError] is raised for the keys that are not stored, and only for
    them. *)
Lemma getitem_KeyError_lawful d k :
  ok d → result (__getitem__ k) d = inl KeyError ↔ k ∉ keys d.
Proof.
  intros Hd. rewrite <-(get_entry_None ok) by done. unfold result.
  destruct (_get_entry k d) eqn:He.
  - by erewrite getitem_stored.
  - by erewrite getitem_missing.
Qed.

Lemma getitem_stored_lawful d k v :
  ok d → (k, v) ∈ items d → __getitem__ k d = (inr v, d).
Proof.
  intros Hd Hkv. by erewrite getitem_stored; [|by apply (get_entry_stored ok)].
Qed.

Lemma pop_KeyError_lawful d k :
  ok d → result (pop k None) d = inl KeyError ↔ k ∉ keys d.
Proof.
  intros Hd. rewrite <-(get_entry_None ok) by done. unfold result.
  destruct (_get_entry k d) eqn:He.
  - destruct (pop_stored ok d k _ None Hd He) as (d' & -> & _). done.
  - by rewrite pop_missing.
Qed.

Lemma pop_default_lawful d k v :
  ok d → k ∉ keys d → pop k (Some v) d = (inr v, d).
Proof. intros Hd Hk%(get_entry_None ok); [|done]. by rewrite pop_missing. Qed.

Lemma pop_stored_lawful d k v default :
  ok d → (k, v) ∈ items d →
  ∃ d', pop k default d = (inr v, d') ∧ ok d' ∧
        (k ∉ keys d') ∧ (items d ≡ₚ (k, v) :: items d').
Proof.
  intros Hd Hkv%(get_entry_stored ok); [|done].
  destruct (pop_stored ok d k _ default Hd Hkv) as (d' & Heq & Hd' & Hp).
  exists d'. split_and!; [done..| |].
  - pose proof (lawful_NoDup d Hd) as Hnd. unfold keys in *.
    rewrite Hp, fmap_cons in Hnd. by apply NoDup_cons in Hnd as [? _].
  - by rewrite (items_Permutation d d _ Hp).
Qed.

(** [setdefault] adds the default for a missing key and reads a stored
    one. *)
Lemma setdefault_missing_lawful d k default :
  ok d → k ∉ keys d →
  ∃ d', setdefault k default d = (inr default, d') ∧ ok d' ∧
        items d' ≡ₚ (k, default) :: items d.
Proof.
  intros Hd Hk%(get_entry_None ok); [|done].
  destruct (setdefault_missing ok d k default Hd Hk) as (d' & Heq & Hd' & Hp).
  exists d'. split_and!; [done..|]. by rewrite (items_Permutation d' d' _ Hp).
Qed.

Lemma setdefault_stored_lawful d k v default :
  ok d → (k, v) ∈ items d → setdefault k default d = (inr v, d).
Proof.
  intros Hd Hkv%(get_entry_stored ok); [|done].
  by rewrite (setdefault_stored d k (mkEntry k v)).
Qed.

End lawful_api.

(** * Properties of MyDict and MySortedDict *)

Section dictionaries.
Context {K V : Type} `{Countable K} `{!PyOrd K} `{!PyNone V}.

(** C1. Replace semantics of [set] and [update], on every [MyDict] and every
    [MySortedDict]: after [d[k] = v1], [get(k)] returns [v1]; after a second
    write of [k], by [d[k] = v2] or by [update(k, v2)], [get(k)] returns [v2]
    and [len()] is what it was before the second write; [update] is the same
    method as [__setitem__]. *)
Theorem C1_replace_semantics (k : K) (v1 v2 default : V) :
  (∀ m : gmap K V,
     let d1 := after (__setitem__ k v1) m in
     result (get k default) d1 = inr v1 ∧
     result (get k default) (after (__setitem__ k v2) d1) = inr v2 ∧
     __len__ (after (__setitem__ k v2) d1) = __len__ d1 ∧
     result (get k default) (after (update k v2) d1) = inr v2 ∧
     __len__ (after (update k v2) d1) = __len__ d1) ∧
  (∀ s : list (Entry K V),
     increasing s →
     let d1 := after (__setitem__ k v1) s in
     result (get k default) d1 = inr v1 ∧
     result (get k default) (after (__setitem__ k v2) d1) = inr v2 ∧
     __len__ (after (__setitem__ k v2) d1) = __len__ d1 ∧
     result (get k default) (after (update k v2) d1) = inr v2 ∧
     __len__ (after (update k v2) d1) = __len__ d1) ∧
  (∀ D (B : BaseDict K V D), update (D := D) k v2 = __setitem__ k v2).
Proof.
  split_and!.
  - intros m d1.
    destruct (replace_lawful (λ _, True) m k v1 v2 default I) as (? & ? & ?).
    by split_and!.
  - intros s Hs d1.
    destruct (replace_lawful increasing s k v1 v2 default Hs) as (? & ? & ?).
    by split_and!.
  - done.
Qed.

(** C2. Uniqueness: whatever calls ([d[k] = v], [d[k]], [get], [setdefault],
    [pop], [update]) a program makes on an empty [MyDict] or [MySortedDict],
    the keys of the stored entries are pairwise distinct, and two stored
    entries with equal keys are one entry. *)
Theorem C2_uniqueness :
  (∀ cs : list call,
     let d : gmap K V := do_calls cs MyDict.__init__ in
     NoDup (keys d) ∧
     ∀ e1 e2, e1 ∈ _entries d → e2 ∈ _entries d → key e1 = key e2 → e1 = e2) ∧
  (∀ cs : list call,
     let d : list (Entry K V) := do_calls cs MySortedDict.__init__ in
     NoDup (keys d) ∧
     ∀ e1 e2, e1 ∈ _entries d → e2 ∈ _entries d → key e1 = key e2 → e1 = e2).
Proof.
  split; intros cs d.
  - split; [by apply (lawful_NoDup (ok := λ _, True))|].
    intros e1 e2. by apply (entries_key_inj (λ _, True) d).
  - assert (increasing d) as Hd.
    { apply (do_calls_ok increasing). constructor. }
    split; [by apply (lawful_NoDup (ok := increasing))|].
    intros e1 e2. by apply (entries_key_inj increasing d).
Qed.

(** C4. Ordering invariant of [MySortedDict]: whatever calls a program makes
    on an empty [MySortedDict], the entries [_entries()] yields have strictly
    increasing keys, and so have [keys()] and [items()]. *)
Theorem C4_sorted_order (cs : list call) :
  let d : list (Entry K V) := do_calls cs MySortedDict.__init__ in
  increasing (_entries d) ∧
  StronglySorted (λ k1 k2, py_lt k1 k2 = true) (keys d) ∧
  StronglySorted (λ kv1 kv2, py_lt kv1.1 kv2.1 = true) (items d) ∧
  values d = (items d).*2.
Proof.
  intros d. assert (increasing d) as Hd.
  { apply (do_calls_ok increasing). constructor. }
  split_and!; [done|..].
  - unfold keys. unfold_MySortedDict. by eapply (StronglySorted_fmap _ key_lt).
  - unfold items. unfold_MySortedDict. by eapply (StronglySorted_fmap _ key_lt).
  - unfold values, items. by rewrite <-list_fmap_compose.
Qed.

(** C5. Boundaries of the binary searches: on a [MySortedDict] with strictly
    increasing keys, for every key [k], stored or not, [bisect_left(k)] is
    the number of stored keys less than [k] and [bisect_right(k)] is the
    number of stored keys less than or equal to [k]. *)
Theorem C5_bisect_counts (d : list (Entry K V)) (k : K) :
  increasing d →
  MySortedDict.bisect_left k d = count_keys (λ k', py_lt k' k) (keys d) ∧
  MySortedDict.bisect_right k d = count_keys (λ k', py_le k' k) (keys d).
Proof.
  intros Hd. unfold MySortedDict.bisect_left, MySortedDict.bisect_right.
  rewrite bisect_left_count, bisect_right_count by done. split; [done|].
  unfold keys, count_keys. unfold_MySortedDict. f_equal.
  apply list_filter_iff. intros k'.
  unfold py_le. destruct (py_lt_trichotomy k' k) as [Hlt|[->|Hgt]].
  - by rewrite Hlt, (py_lt_asym _ _ Hlt).
  - by rewrite py_lt_irrefl, bool_decide_eq_true_2.
  - rewrite Hgt, (py_lt_asym _ _ Hgt), bool_decide_eq_false_2; [done|].
    intros ->. by rewrite py_lt_irrefl in Hgt.
Qed.

(** C6. [KeyError] and [pop], on every [MyDict] and on every [MySortedDict]
    with strictly increasing keys: [d[k]] raises [KeyError] exactly when [k]
    is not stored and returns the stored value otherwise; [pop(k)] without a
    default raises [KeyError] exactly when [k] is not stored; [pop(k, v)] of
    a key that is not stored returns [v] and leaves the dictionary as it
    was; [pop] of a stored key returns its value and removes its entry,
    keeping the others. *)
Theorem C6_KeyError_and_pop (k : K) :
  (∀ m : gmap K V,
     (result (__getitem__ k) m = inl KeyError ↔ k ∉ keys m) ∧
     (∀ v, (k, v) ∈ items m → __getitem__ k m = (inr v, m)) ∧
     (result (pop k None) m = inl KeyError ↔ k ∉ keys m) ∧
     (∀ v, k ∉ keys m → pop k (Some v) m = (inr v, m)) ∧
     (∀ v default, (k, v) ∈ items m →
        result (pop k default) m = inr v ∧
        (k ∉ keys (after (pop k default) m)) ∧
        (items m ≡ₚ (k, v) :: items (after (pop k default) m)))) ∧
  (∀ s : list (Entry K V),
     increasing s →
     (result (__getitem__ k) s = inl KeyError ↔ k ∉ keys s) ∧
     (∀ v, (k, v) ∈ items s → __getitem__ k s = (inr v, s)) ∧
     (result (pop k None) s = inl KeyError ↔ k ∉ keys s) ∧
     (∀ v, k ∉ keys s → pop k (Some v) s = (inr v, s)) ∧
     (∀ v default, (k, v) ∈ items s →
        result (pop k default) s = inr v ∧
        (k ∉ keys (after (pop k default) s)) ∧
        (items s ≡ₚ (k, v) :: items (after (pop k default) s)))).
Proof.
  split.
  - intros m. split_and!.
    + by apply (getitem_KeyError_lawful (λ _, True)).
    + intros v. by apply (getitem_stored_lawful (λ _, True)).
    + by apply (pop_KeyError_lawful (λ _, True)).
    + intros v. by apply (pop_default_lawful (λ _, True)).
    + intros v default Hkv.
      destruct (pop_stored_lawful (λ _, True) m k v default I Hkv)
        as (d' & Heq & _ & ? & ?).
      unfold result, after. by rewrite Heq.
  - intros s Hs. split_and!.
    + by apply (getitem_KeyError_lawful increasing).
    + intros v. by apply (getitem_stored_lawful increasing).
    + by apply (pop_KeyError_lawful increasing).
    + intros v. by apply (pop_default_lawful increasing).
    + intros v default Hkv.
      destruct (pop_stored_lawful increasing s k v default Hs Hkv)
        as (d' & Heq & _ & ? & ?).
      unfold result, after. by rewrite Heq.
Qed.

(** C7. Indexing and bounds of [peekitem]: on a [MySortedDict] of [n]
    entries, [peekitem(i)] raises [IndexError] exactly when [i] is outside
    [-n <= i < n]; for [0 <= i < n] it returns the pair at position [i] of
    [items()], and for [-n <= i < 0] the pair at position [n + i]; the
    dictionary is left as it was. *)
Theorem C7_peekitem (d : list (Entry K V)) (i : Z) :
  let n := Z.of_nat (__len__ d) in
  (result (MySortedDict.peekitem i) d = inl IndexError ↔ ¬ (- n ≤ i < n)%Z) ∧
  ((0 ≤ i < n)%Z →
     ∃ kv, items d !! Z.to_nat i = Some kv ∧
           MySortedDict.peekitem i d = (inr kv, d)) ∧
  ((- n ≤ i < 0)%Z →
     ∃ kv, items d !! Z.to_nat (n + i) = Some kv ∧
           MySortedDict.peekitem i d = (inr kv, d)).
Proof.
  intros n. subst n. unfold __len__, MySortedDict_len. unfold_MySortedDict.
  assert (∀ j : nat, j < length d →
    ∃ e, d !! j = Some e ∧ items d !! j = Some (key e, value e)) as Hitems.
  { intros j [e He]%lookup_lt_is_Some_2. exists e. split; [done|].
    unfold items. unfold_MySortedDict. by rewrite list_lookup_fmap, He. }
  assert (∀ j : nat, (0 ≤ i + Z.of_nat (length d))%Z → (i < 0)%Z →
    j = Z.to_nat (Z.of_nat (length d) + i) → j < length d) as Hneg by lia.
  unfold MySortedDict.peekitem, result. run_method.
  unfold_MySortedDict. unfold SortedSet.getitem.
  destruct (decide (_ ∨ _)) as [Hout|Hin]; simpl.
  - split_and!; [split; [lia|done]|lia|lia].
  - destruct (decide (i < 0)%Z) as [Hi|Hi].
    + destruct (decide (_ < 0)%Z); [lia|].
      destruct (Hitems (Z.to_nat (Z.of_nat (length d) + i))) as (e & He & Hkv);
        [lia|].
      replace (i + Z.of_nat (length d))%Z with (Z.of_nat (length d) + i)%Z by lia.
      rewrite He. simpl. split_and!; [split; [done|lia]|lia|].
      intros _. by exists (key e, value e).
    + destruct (decide (_ < 0)%Z); [lia|].
      destruct (Hitems (Z.to_nat i)) as (e & He & Hkv); [lia|].
      rewrite He. simpl. split_and!; [split; [done|lia]| |lia].
      intros _. by exists (key e, value e).
Qed.

(** C9. [setdefault], on every [MyDict] and on every [MySortedDict] with
    strictly increasing keys: for a key that is not stored it returns the
    default and adds the entry of the key and the default to the entries
    that were stored; for a stored key it returns the stored value and
    leaves the dictionary, hence the entries and their order, as it was. *)
Theorem C9_setdefault (k : K) (default : V) :
  (∀ m : gmap K V,
     (k ∉ keys m →
        result (setdefault k default) m = inr default ∧
        (items (after (setdefault k default) m) ≡ₚ (k, default) :: items m)) ∧
     (∀ v, (k, v) ∈ items m → setdefault k default m = (inr v, m))) ∧
  (∀ s : list (Entry K V),
     increasing s →
     (k ∉ keys s →
        result (setdefault k default) s = inr default ∧
        (items (after (setdefault k default) s) ≡ₚ (k, default) :: items s) ∧
        increasing (after (setdefault k default) s)) ∧
     (∀ v, (k, v) ∈ items s → setdefault k default s = (inr v, s))).
Proof.
  split.
  - intros m. split.
    + intros Hk.
      destruct (setdefault_missing_lawful (λ _, True) m k default I Hk)
        as (d' & Heq & _ & ?).
      unfold result, after. by rewrite Heq.
    + intros v. by apply (setdefault_stored_lawful (λ _, True)).
  - intros s Hs. split.
    + intros Hk.
      destruct (setdefault_missing_lawful increasing s k default Hs Hk)
        as (d' & Heq & ? & ?).
      unfold result, after. by rewrite Heq.
    + intros v. by apply (setdefault_stored_lawful increasing).
Qed.

End dictionaries.

(** * DictCache *)

Section ordered_dict_facts.
Context {K V : Type} `{EqDecision K}.
Implicit Types (od : list (K * V)) (k : K) (v : V).

Lemma od_contains_true k od : OrderedDict.contains k od = true ↔ k ∈ od.*1.
Proof.
  unfold OrderedDict.contains. rewrite existsb_exists, list_elem_of_fmap. split.
  - intros (kv & Hkv%list_elem_of_In & Hk%bool_decide_eq_true). by exists kv.
  - intros (kv & -> & Hkv%list_elem_of_In). exists kv.
    split; [done|]. by apply bool_decide_eq_true.
Qed.

Lemma od_contains_false k od : OrderedDict.contains k od = false ↔ k ∉ od.*1.
Proof. by rewrite <-not_true_iff_false, od_contains_true. Qed.

Lemma od_find_None k od : find (OrderedDict.has_key k) od = None ↔ k ∉ od.*1.
Proof.
  rewrite <-od_contains_false. unfold OrderedDict.contains.
  induction od as [|kv od IH]; simpl; [done|].
  destruct (OrderedDict.has_key k kv); [done|]. by rewrite IH.
Qed.

Lemma od_find_app k od1 od2 :
  find (OrderedDict.has_key k) (od1 ++ od2) =
  match find (OrderedDict.has_key k) od1 with
  | Some kv => Some kv
  | None => find (OrderedDict.has_key k) od2
  end.
Proof.
  induction od1 as [|kv od1 IH]; simpl; [done|].
  by destruct (OrderedDict.has_key k kv).
Qed.

Lemma od_find_Some k od kv :
  find (OrderedDict.has_key k) od = Some kv → kv.1 = k ∧ kv ∈ od.
Proof.
  intros [Hin%list_elem_of_In Hk%bool_decide_eq_true]%find_some. done.
Qed.

Lemma od_others_missing k od : k ∉ od.*1 → od_others k od = od.
Proof.
  unfold od_others. induction od as [|kv od IH]; [done|].
  rewrite fmap_cons, not_elem_of_cons. intros [Hne ?].
  rewrite filter_cons_True; [f_equal; auto|].
  unfold OrderedDict.has_key. by rewrite bool_decide_eq_false_2.
Qed.

Lemma od_others_keys k od : (od_others k od).*1 = filter (λ k', k' ≠ k) od.*1.
Proof.
  unfold od_others. induction od as [|kv od IH]; [done|]. rewrite fmap_cons.
  destruct (decide (kv.1 = k)) as [Heq|Hne].
  - rewrite filter_cons_False, filter_cons_False; [done|naive_solver|].
    unfold OrderedDict.has_key. rewrite bool_decide_eq_true_2 by done. by intros [].
  - rewrite filter_cons_True, filter_cons_True; [|done|].
    + rewrite fmap_cons. by f_equal.
    + unfold OrderedDict.has_key. by rewrite bool_decide_eq_false_2.
Qed.

Lemma od_others_length k od :
  k ∈ od.*1 → length (od_others k od) < length od.
Proof.
  intros (kv & -> & Hkv)%list_elem_of_fmap. unfold od_others.
  eapply length_filter_lt; [done|].
  unfold OrderedDict.has_key. rewrite bool_decide_eq_true_2 by done. by intros [].
Qed.

Lemma od_others_setitem k v od :
  od_others k ((λ kv, if OrderedDict.has_key k kv then (kv.1, v) else kv) <$> od)
  = od_others k od.
Proof.
  unfold od_others. induction od as [|kv od IH]; [done|]. rewrite fmap_cons.
  destruct (OrderedDict.has_key k kv) eqn:Hk.
  - rewrite !filter_cons_False; [done|rewrite Hk; by intros []|].
    unfold OrderedDict.has_key in *. simpl. rewrite Hk. by intros [].
  - rewrite !filter_cons_True; [by f_equal|by rewrite Hk..].
Qed.

Lemma od_find_setitem k v od :
  k ∈ od.*1 →
  find (OrderedDict.has_key k)
    ((λ kv, if OrderedDict.has_key k kv then (kv.1, v) else kv) <$> od)
  = Some (k, v).
Proof.
  induction od as [|kv od IH]; [by intros ?%elem_of_nil|].
  rewrite !fmap_cons. simpl. destruct (OrderedDict.has_key k kv) eqn:Hk.
  - intros _. unfold OrderedDict.has_key in *. simpl. rewrite Hk.
    by apply bool_decide_eq_true in Hk as ->.
  - rewrite Hk. intros [Heq|?]%elem_of_cons; [|auto].
    unfold OrderedDict.has_key in Hk. by rewrite bool_decide_eq_true_2 in Hk.
Qed.

End ordered_dict_facts.

Section dict_cache_facts.
Context {K V : Type} `{EqDecision K}.
Implicit Types (c : DictCache.t (K := K) (V := V)) (k : K) (v : V).
Implicit Types (acs : list (DictCache.access (K := K) (V := V))).

(** Reading a stored key returns its value and makes its item the last. *)
Lemma read_stored c k :
  k ∈ cache_keys c →
  ∃ v, (k, v) ∈ DictCache.od c ∧
       DictCache.__getitem__ k c =
       (inr v, DictCache.mk (od_others k (DictCache.od c) ++ [(k, v)])
                            (DictCache.maxsize c)).
Proof.
  intros Hk. unfold DictCache.__getitem__, DictCache.try_od. run_method.
  unfold OrderedDict.getitem, OrderedDict.move_to_end.
  destruct (find _ _) as [[k' v]|] eqn:Hf.
  - apply od_find_Some in Hf as [Heq ?]. simpl in Heq. subst k'.
    by exists v.
  - by apply od_find_None in Hf.
Qed.

Lemma read_missing c k :
  k ∉ cache_keys c → DictCache.__getitem__ k c = (inl KeyError, c).
Proof.
  intros Hk%od_find_None. unfold DictCache.__getitem__. run_method.
  unfold OrderedDict.getitem. by rewrite Hk.
Qed.

(** Writing a stored key replaces its value and makes its item the last. *)
Lemma write_stored c k v :
  k ∈ cache_keys c →
  DictCache.__setitem__ k v c =
  (inr tt, DictCache.mk (od_others k (DictCache.od c) ++ [(k, v)])
                        (DictCache.maxsize c)).
Proof.
  intros Hk. unfold DictCache.__setitem__, DictCache.with_od, DictCache.try_od.
  run_method. unfold OrderedDict.setitem, OrderedDict.move_to_end.
  rewrite (proj2 (od_contains_true k _)) by done. simpl.
  rewrite od_find_setitem by done.
  fold (od_others k ((λ kv, if OrderedDict.has_key k kv then (kv.1, v) else kv)
                       <$> DictCache.od c)).
  by rewrite od_others_setitem.
Qed.

(** Writing a new key appends its item, and removes the first item when the
    dictionary has grown beyond [maxsize]. *)
Lemma write_new c k v :
  k ∉ cache_keys c →
  DictCache.__setitem__ k v c =
  (inr tt,
   DictCache.mk
     (if decide (Z.of_nat (S (length (DictCache.od c))) > DictCache.maxsize c)%Z
      then tail (DictCache.od c ++ [(k, v)])
      else DictCache.od c ++ [(k, v)])
     (DictCache.maxsize c)).
Proof.
  intros Hk. unfold DictCache.__setitem__, DictCache.with_od, DictCache.try_od.
  run_method. unfold OrderedDict.setitem, OrderedDict.move_to_end.
  rewrite (proj2 (od_contains_false k _)) by done. simpl.
  assert (find (OrderedDict.has_key k) (DictCache.od c ++ [(k, v)]) = Some (k, v))
    as ->.
  { apply od_find_None in Hk. rewrite od_find_app, Hk. simpl.
    unfold OrderedDict.has_key. simpl. by rewrite bool_decide_eq_true_2. }
  fold (od_others k (DictCache.od c ++ [(k, v)])).
  assert (od_others k (DictCache.od c ++ [(k, v)]) = DictCache.od c) as ->.
  { unfold od_others. rewrite filter_app, filter_cons_False, filter_nil.
    - rewrite app_nil_r. by apply od_others_missing.
    - unfold OrderedDict.has_key. simpl.
      rewrite bool_decide_eq_true_2 by done. by intros []. }
  simpl. rewrite length_app. simpl. rewrite Nat.add_1_r.
  unfold DictCache.popitem_first, OrderedDict.popitem_first. simpl.
  destruct (decide _) as [Hgt|Hle].
  - rewrite bool_decide_eq_true_2 by done.
    by destruct (DictCache.od c) as [|[k0 v0] od'].
  - by rewrite bool_decide_eq_false_2.
Qed.

Lemma access_maxsize a c :
  DictCache.maxsize (DictCache.do_access a c) = DictCache.maxsize c.
Proof.
  destruct a as [k|k v]; simpl; unfold after;
    destruct (decide (k ∈ cache_keys c)) as [Hk|Hk].
  - by destruct (read_stored c k Hk) as (v & _ & ->).
  - by rewrite read_missing.
  - by rewrite write_stored.
  - by rewrite write_new.
Qed.

Lemma accesses_snoc acs a c :
  DictCache.do_accesses (acs ++ [a]) c =
  DictCache.do_access a (DictCache.do_accesses acs c).
Proof. unfold DictCache.do_accesses. by rewrite foldl_app. Qed.

Lemma accesses_maxsize acs c :
  DictCache.maxsize (DictCache.do_accesses acs c) = DictCache.maxsize c.
Proof.
  induction acs as [|a acs IH] using rev_ind; [done|].
  by rewrite accesses_snoc, access_maxsize.
Qed.

Lemma filter_ne_missing k (ks : list K) :
  k ∉ ks → filter (λ k', k' ≠ k) ks = ks.
Proof.
  induction ks as [|k0 ks IH]; [done|]. intros [? ?]%not_elem_of_cons.
  rewrite filter_cons_True by done. f_equal. auto.
Qed.

(** The keys after an access. *)
Lemma access_keys a c :
  let k := DictCache.access_key a in
  let moved := filter (λ k', k' ≠ k) (cache_keys c) ++ [k] in
  cache_keys (DictCache.do_access a c) =
  match a with
  | DictCache.Read _ => if decide (k ∈ cache_keys c) then moved else cache_keys c
  | DictCache.Write _ _ =>
      if decide ((k ∉ cache_keys c) ∧
                 (Z.of_nat (S (length (cache_keys c))) > DictCache.maxsize c)%Z)
      then tail moved else moved
  end.
Proof.
  destruct a as [k|k v]; simpl; unfold after;
    destruct (decide (k ∈ cache_keys c)) as [Hk|Hk].
  - destruct (read_stored c k Hk) as (v & _ & ->). unfold cache_keys. simpl.
    by rewrite fmap_app, od_others_keys.
  - by rewrite read_missing.
  - rewrite write_stored by done. rewrite decide_False by tauto.
    unfold cache_keys. simpl. by rewrite fmap_app, od_others_keys.
  - rewrite write_new by done. unfold cache_keys in *. simpl.
    rewrite length_fmap, <-od_others_keys, od_others_missing by done.
    destruct (decide (_ > _)%Z).
    + rewrite decide_True by done.
      destruct (DictCache.od c); simpl; [done|]. by rewrite fmap_app.
    + rewrite decide_False by tauto. by rewrite fmap_app.
Qed.

(** The capacity is kept by every access. *)
Lemma access_capacity a c :
  (0 ≤ DictCache.maxsize c)%Z →
  (Z.of_nat (length (cache_keys c)) ≤ DictCache.maxsize c)%Z →
  (Z.of_nat (length (cache_keys (DictCache.do_access a c))) ≤ DictCache.maxsize c)%Z.
Proof.
  intros Hmax Hlen. rewrite access_keys. simpl.
  set (k := DictCache.access_key a).
  assert (k ∈ cache_keys c →
    length (filter (λ k', k' ≠ k) (cache_keys c) ++ [k]) ≤ length (cache_keys c))
    as Hmoved.
  { intros Hk. rewrite length_app. simpl.
    pose proof (length_filter_lt (λ k', k' ≠ k) (cache_keys c) k Hk) as Hlt.
    specialize (Hlt ltac:(naive_solver)). lia. }
  pose proof (filter_ne_missing k (cache_keys c)) as Hnew.
  destruct a as [k'|k' v]; simpl in *; subst k.
  - destruct (decide (k' ∈ _)); [|done]. specialize (Hmoved ltac:(done)). lia.
  - destruct (decide (_ ∧ _)) as [[Hk Hgt]|Hn].
    + rewrite Hnew by done.
      destruct (cache_keys c); simpl in *; [lia|]. rewrite length_app. simpl. lia.
    + destruct (decide (k' ∈ cache_keys c)) as [Hk|Hk].
      * specialize (Hmoved Hk). lia.
      * rewrite Hnew by done. rewrite length_app. simpl.
        assert (¬ (Z.of_nat (S (length (cache_keys c))) > DictCache.maxsize c)%Z)
          by tauto.
        lia.
Qed.

(** *** Recency *)

Lemma last_use_lt k acs t : last_use k acs = Some t → t < length acs.
Proof.
  revert t. induction acs as [|a acs IH]; intros t; simpl; [done|].
  destruct (last_use k acs) as [t'|].
  - intros [= <-]. specialize (IH t' eq_refl). lia.
  - destruct (decide _); [|done]. intros [= <-]. lia.
Qed.

Lemma last_use_snoc k acs a :
  last_use k (acs ++ [a]) =
  if decide (DictCache.access_key a = k) then Some (length acs)
  else last_use k acs.
Proof.
  induction acs as [|a' acs IH]; simpl.
  - by destruct (decide _).
  - rewrite IH. destruct (decide (DictCache.access_key a = k)); [done|].
    by destruct (last_use k acs).
Qed.

Lemma StronglySorted_impl_elem_of {A} (R1 R2 : relation A) (l : list A) :
  (∀ x y, x ∈ l → y ∈ l → R1 x y → R2 x y) →
  StronglySorted R1 l → StronglySorted R2 l.
Proof.
  induction l as [|x l IH]; intros Himpl; [constructor|].
  rewrite !StronglySorted_cons, !Forall_forall. intros [Hx Hl]. split.
  - intros y Hy. apply Himpl; [left|by right|by apply Hx].
  - apply IH; [|done]. intros y z ??. apply Himpl; by right.
Qed.

Lemma used_before_snoc acs a k1 k2 :
  DictCache.access_key a ≠ k1 → DictCache.access_key a ≠ k2 →
  used_before acs k1 k2 → used_before (acs ++ [a]) k1 k2.
Proof.
  intros ?? (t1 & t2 & ? & ? & ?). exists t1, t2.
  rewrite !last_use_snoc, !decide_False by done. done.
Qed.

Lemma used_before_last acs a k :
  DictCache.access_key a ≠ k → is_Some (last_use k acs) →
  used_before (acs ++ [a]) k (DictCache.access_key a).
Proof.
  intros ? [t Ht]. exists t, (length acs).
  rewrite !last_use_snoc, decide_False, decide_True by done.
  split_and!; [done..|]. by eapply last_use_lt.
Qed.

Lemma recency_untouched acs a ks :
  DictCache.access_key a ∉ ks → recency acs ks → recency (acs ++ [a]) ks.
Proof.
  intros Hk (Hnd & Hused & Hs). split_and!; [done| |].
  - intros k Hin. rewrite last_use_snoc. destruct (decide _); [done|auto].
  - eapply StronglySorted_impl_elem_of; [|done].
    intros x y ???. apply used_before_snoc; [congruence..|done].
Qed.

Lemma recency_moved acs a ks :
  recency acs ks →
  recency (acs ++ [a])
    (filter (λ k', k' ≠ DictCache.access_key a) ks ++ [DictCache.access_key a]).
Proof.
  intros (Hnd & Hused & Hs). set (k := DictCache.access_key a). split_and!.
  - apply NoDup_app. split_and!.
    + by apply NoDup_filter.
    + intros k' [? _]%list_elem_of_filter ->%list_elem_of_singleton. done.
    + apply NoDup_singleton.
  - intros k' Hin. rewrite last_use_snoc. destruct (decide _); [done|].
    apply elem_of_app in Hin as [[_ ?]%list_elem_of_filter|?%list_elem_of_singleton];
      [auto|by subst].
  - apply StronglySorted_app_2.
    + intros k1 k2 [Hne Hin]%list_elem_of_filter ->%list_elem_of_singleton.
      apply used_before_last; [done|auto].
    + eapply StronglySorted_impl_elem_of; [|].
      * intros x y [? _]%list_elem_of_filter [? _]%list_elem_of_filter ?.
        by apply used_before_snoc.
      * clear Hnd Hused. induction Hs as [|k0 ks' ? IH Hall]; [constructor|].
        destruct (decide (k0 ≠ k)).
        -- rewrite filter_cons_True by done. constructor; [done|].
           rewrite Forall_forall in *. intros y [_ ?]%list_elem_of_filter. auto.
        -- by rewrite filter_cons_False.
    + repeat constructor.
Qed.

Lemma recency_tail acs ks : recency acs ks → recency acs (tail ks).
Proof.
  intros (Hnd & Hused & Hs). destruct ks as [|k ks]; [done|]. simpl.
  apply NoDup_cons in Hnd as [_ ?]. apply StronglySorted_cons in Hs as [_ ?].
  split_and!; [done| |done]. intros k' ?. apply Hused. by right.
Qed.

(** The order of the keys of a cache is the order of their last accesses. *)
Lemma accesses_recency acs maxsize :
  recency acs (cache_keys (DictCache.do_accesses acs (DictCache.__init__ maxsize))).
Proof.
  induction acs as [|a acs IH] using rev_ind.
  { split_and!; [constructor| |constructor]. by intros k ?%elem_of_nil. }
  rewrite accesses_snoc, access_keys. simpl.
  set (c := DictCache.do_accesses acs _) in *.
  destruct a as [k|k v]; simpl.
  - destruct (decide _); [by apply (recency_moved acs (DictCache.Read k))|].
    by apply recency_untouched.
  - destruct (decide _).
    + by apply recency_tail, (recency_moved acs (DictCache.Write k v)).
    + by apply (recency_moved acs (DictCache.Write k v)).
Qed.

End dict_cache_facts.

(** * Properties of DictCache *)

Section dict_cache_properties.
Context {K V : Type} `{EqDecision K}.
Implicit Types (k : K) (v : V).
Implicit Types (acs : list (DictCache.access (K := K) (V := V))).

(** C3. Eviction of the least recently used key: after any program of reads
    and writes on an empty [DictCache] with [maxsize >= 1], the keys stand in
    the order of their last accesses; writing a key that is not stored into
    a cache of [maxsize] keys removes the first item, whose key was accessed
    before every other stored key, keeps the other items and appends the new
    one; writing a new key below [maxsize] appends it; writing a stored key
    removes nothing and makes its item the last; reading a stored key
    returns its value and makes its item the last. *)
Theorem C3_lru_eviction (maxsize : Z) acs :
  (1 ≤ maxsize)%Z →
  let c := DictCache.do_accesses acs (DictCache.__init__ maxsize) in
  (∀ i j k1 k2, i < j → cache_keys c !! i = Some k1 → cache_keys c !! j = Some k2 →
     used_before acs k1 k2) ∧
  (∀ k v, k ∉ cache_keys c → Z.of_nat (length (cache_keys c)) = maxsize →
     ∃ lru rest,
       DictCache.od c = lru :: rest ∧
       (∀ k', k' ∈ rest.*1 → used_before acs lru.1 k') ∧
       DictCache.od (after (DictCache.__setitem__ k v) c) = rest ++ [(k, v)]) ∧
  (∀ k v, k ∉ cache_keys c → (Z.of_nat (length (cache_keys c)) < maxsize)%Z →
     DictCache.od (after (DictCache.__setitem__ k v) c) =
     DictCache.od c ++ [(k, v)]) ∧
  (∀ k v, k ∈ cache_keys c →
     DictCache.od (after (DictCache.__setitem__ k v) c) =
       od_others k (DictCache.od c) ++ [(k, v)] ∧
     cache_keys (after (DictCache.__setitem__ k v) c) ≡ₚ cache_keys c) ∧
  (∀ k v, (k, v) ∈ DictCache.od c →
     result (DictCache.__getitem__ k) c = inr v ∧
     DictCache.od (after (DictCache.__getitem__ k) c) =
       od_others k (DictCache.od c) ++ [(k, v)]).
Proof.
  intros Hmax c. pose proof (accesses_recency acs maxsize) as (Hnd & Hused & Hs).
  fold c in Hnd, Hused, Hs.
  assert (DictCache.maxsize c = maxsize) as Hc by apply accesses_maxsize.
  split_and!.
  - intros i j k1 k2 Hij Hi Hj. rewrite <-(take_drop j (cache_keys c)) in Hs.
    eapply StronglySorted_app_1_elem_of; [exact Hs|..].
    + apply elem_of_take. eauto.
    + apply list_elem_of_lookup. exists 0. by rewrite lookup_drop, Nat.add_0_r.
  - intros k v Hk Hlen. unfold after. rewrite write_new by done. simpl.
    unfold cache_keys in *. rewrite length_fmap in Hlen.
    rewrite Hc, decide_True by lia.
    destruct (DictCache.od c) as [|lru rest]; simpl in *; [lia|].
    exists lru, rest. split_and!; [done| |done].
    intros k' Hk'. apply StronglySorted_cons in Hs as [Hall _].
    by eapply Forall_forall in Hall.
  - intros k v Hk Hlen. unfold after. rewrite write_new by done. simpl.
    unfold cache_keys in *. rewrite length_fmap in Hlen.
    by rewrite Hc, decide_False by lia.
  - intros k v Hk. unfold after. rewrite write_stored by done. simpl.
    split; [done|]. unfold cache_keys. simpl.
    rewrite fmap_app, od_others_keys. simpl.
    rewrite <-(filter_app_complement (λ k', k' ≠ k) (DictCache.od c).*1) at 2.
    f_equiv. symmetry. apply NoDup_Permutation.
    + apply NoDup_filter, Hnd.
    + apply NoDup_singleton.
    + intros k'. rewrite list_elem_of_filter, list_elem_of_singleton.
      split; [intros [?%dec_stable ?]; done|intros ->; split; [naive_solver|done]].
  - intros k v Hkv.
    assert (k ∈ cache_keys c) as Hk.
    { apply list_elem_of_fmap. by exists (k, v). }
    destruct (read_stored c k Hk) as (v' & Hkv' & Heq).
    assert (v' = v) as ->.
    { apply list_elem_of_lookup in Hkv as [i Hi], Hkv' as [j Hj].
      assert (i = j) as ->; [|congruence].
      eapply NoDup_lookup; [exact Hnd|..]; unfold cache_keys;
        rewrite list_lookup_fmap; [by rewrite Hi|by rewrite Hj]. }
    unfold result, after. by rewrite Heq.
Qed.

(** C8. Capacity: after any program of reads and writes on an empty
    [DictCache] with [maxsize >= 1], the cache holds at most [maxsize]
    keys. *)
Theorem C8_capacity (maxsize : Z) acs :
  (1 ≤ maxsize)%Z →
  (Z.of_nat (length (cache_keys
     (DictCache.do_accesses acs (DictCache.__init__ maxsize)))) ≤ maxsize)%Z.
Proof.
  intros Hmax. induction acs as [|a acs IH] using rev_ind; [simpl; lia|].
  rewrite accesses_snoc.
  pose proof (accesses_maxsize acs (DictCache.__init__ (K := K) (V := V) maxsize))
    as Hc. simpl in Hc.
  rewrite <-Hc at 2. apply access_capacity; rewrite Hc; [lia|done].
Qed.

(** C10. A [maxsize] below one: [DictCache(maxsize)] is built for every
    integer; when [maxsize <= 0], after any program of reads and writes the
    cache holds no key, a write inserts its item and the same call pops that
    very item, leaving the cache empty, and every read raises [KeyError]. *)
Theorem C10_nonpositive_maxsize (maxsize : Z) acs :
  (maxsize ≤ 0)%Z →
  let c := DictCache.do_accesses acs (DictCache.__init__ maxsize) in
  DictCache.maxsize (DictCache.__init__ (K := K) (V := V) maxsize) = maxsize ∧
  cache_keys c = [] ∧
  (∀ k v,
     let inserted :=
       after (writes (DictCache.with_od (OrderedDict.setitem k v));;
              tries (DictCache.try_od (OrderedDict.move_to_end k))) c in
     DictCache.od inserted = [(k, v)] ∧
     DictCache.popitem_first inserted = (inr (k, v), c) ∧
     DictCache.__setitem__ k v c = (inr tt, c)) ∧
  (∀ k, DictCache.__getitem__ k c = (inl KeyError, c)).
Proof.
  intros Hmax c.
  assert (DictCache.maxsize c = maxsize) as Hc by apply accesses_maxsize.
  assert (DictCache.od c = []) as Hod.
  { subst c. clear Hc. induction acs as [|a acs IH] using rev_ind; [done|].
    rewrite accesses_snoc.
    pose proof (accesses_maxsize acs (DictCache.__init__ (K := K) (V := V) maxsize))
      as Hc. simpl in Hc.
    set (c := DictCache.do_accesses acs _) in *.
    destruct a as [k|k v]; simpl; unfold after.
    - rewrite read_missing; [done|]. unfold cache_keys. rewrite IH.
      apply not_elem_of_nil.
    - rewrite write_new by (unfold cache_keys; rewrite IH; apply not_elem_of_nil).
      simpl. rewrite IH. simpl. by rewrite decide_True by lia. }
  assert (∀ k, k ∉ cache_keys c) as Hnone.
  { intros k. unfold cache_keys. rewrite Hod. apply not_elem_of_nil. }
  split_and!; [done|unfold cache_keys; by rewrite Hod| |].
  - intros k v inserted. subst inserted.
    rewrite write_new by done. rewrite Hod, Hc. simpl.
    rewrite decide_True by lia. simpl.
    unfold after, DictCache.with_od, DictCache.try_od, DictCache.popitem_first.
    run_method. rewrite Hod. simpl.
    unfold OrderedDict.move_to_end, OrderedDict.setitem, OrderedDict.has_key.
    simpl. rewrite bool_decide_eq_true_2 by done. simpl.
    rewrite filter_cons_False, filter_nil;
      [|simpl; rewrite bool_decide_eq_true_2 by done; by intros []].
    simpl. destruct c as [od ms]. simpl in *. by subst.
  - intros k. by apply read_missing.
Qed.

End dict_cache_properties.

(** * The tests of the repository and the scenarios of the specification *)

Section tests.
Local Open Scope Z_scope.
Local Open Scope string_scope.

(** [test_cache_behavior]: inserting beyond the capacity removes the eldest
    item. *)
Example test_cache_insert :
  DictCache.do_accesses [DictCache.Write "c" 30] prepared_cache =
  DictCache.mk [("b", 2); ("c", 30)] 2.
Proof. reflexivity. Qed.

(** [test_cache_behavior]: a read refreshes the key, the other key goes. *)
Example test_cache_read :
  DictCache.do_accesses [DictCache.Read "a"; DictCache.Write "c" 30] prepared_cache =
  DictCache.mk [("a", 1); ("c", 30)] 2.
Proof. reflexivity. Qed.

(** [test_cache_behavior]: a write refreshes the key, the other key goes. *)
Example test_cache_write :
  DictCache.do_accesses [DictCache.Write "a" 10; DictCache.Write "c" 30] prepared_cache =
  DictCache.mk [("a", 10); ("c", 30)] 2.
Proof. reflexivity. Qed.

(** [test_bisect_left], [test_bisect_right] *)
Example test_bisect :
  (λ k, MySortedDict.bisect_left k prepared_sorted_dict) <$> ["a"; "d"; "A"]
    = [0; 3; 0]%nat ∧
  (λ k, MySortedDict.bisect_right k prepared_sorted_dict) <$> ["a"; "c"; "d"; "A"]
    = [1; 3; 3; 0]%nat.
Proof. split; reflexivity. Qed.

(** [test_peekitem_valid_indexes], [test_peekitem_invalid_indexes] *)
Example test_peekitem :
  (λ i, result (MySortedDict.peekitem i) prepared_sorted_dict)
    <$> [0; 1; 2; -1; -2; -3; 3; -4]
  = [inr ("a", Some 1); inr ("b", Some 2); inr ("c", Some 3);
     inr ("c", Some 3); inr ("b", Some 2); inr ("a", Some 1);
     inl IndexError; inl IndexError].
Proof. reflexivity. Qed.

(** [test_set_and_update], [test_setdefault], [test_pop] and
    [test_get_and_access] on [MySortedDict]. *)
Example test_sorted_dict_common :
  result (__getitem__ "a")
    (do_calls [CallSetitem "a" (Some 20); CallUpdate "a" (Some 40)]
       prepared_sorted_dict) = inr (Some 40) ∧
  result (setdefault "a" (Some 40)) prepared_sorted_dict = inr (Some 1) ∧
  result (setdefault "d" (Some 40)) prepared_sorted_dict = inr (Some 40) ∧
  result (pop "a" (Some None)) prepared_sorted_dict = inr (Some 1) ∧
  result (get "a" None) (after (pop "a" (Some None)) prepared_sorted_dict) = inr None ∧
  result (pop "d" (Some None)) prepared_sorted_dict = inr None ∧
  result (pop "d" None) prepared_sorted_dict = inl KeyError ∧
  result (__getitem__ "d") prepared_sorted_dict = inl KeyError ∧
  items prepared_sorted_dict = [("a", Some 1); ("b", Some 2); ("c", Some 3)].
Proof. repeat split; reflexivity. Qed.

(** The same tests on [MyDict]. *)
Example test_dict_common :
  result (__getitem__ "a")
    (do_calls [CallSetitem "a" (Some 20); CallUpdate "a" (Some 40)]
       prepared_dict) = inr (Some 40) ∧
  result (setdefault "a" (Some 40)) prepared_dict = inr (Some 1) ∧
  result (setdefault "d" (Some 40)) prepared_dict = inr (Some 40) ∧
  result (pop "a" (Some None)) prepared_dict = inr (Some 1) ∧
  result (get "a" None) (after (pop "a" (Some None)) prepared_dict) = inr None ∧
  result (pop "d" (Some None)) prepared_dict = inr None ∧
  result (pop "d" None) prepared_dict = inl KeyError ∧
  result (__getitem__ "d") prepared_dict = inl KeyError ∧
  __len__ prepared_dict = 3%nat.
Proof. repeat split; vm_compute; reflexivity. Qed.

End tests.

(** * The properties at the dictionaries of the tests *)

Section witnesses.
Local Open Scope Z_scope.
Local Open Scope string_scope.
Local Open Scope list_scope.

Lemma prepared_sorted_dict_increasing : increasing prepared_sorted_dict.
Proof. apply (bool_decide_unpack _). vm_compute. exact I. Defined.

Lemma C1_witness :
  increasing prepared_sorted_dict ∧
  let d1 := after (__setitem__ "a" (Some 20)) prepared_sorted_dict in
  result (get "a" None) d1 = inr (Some 20) ∧
  result (get "a" None) (after (__setitem__ "a" (Some 40)) d1) = inr (Some 40) ∧
  __len__ (after (__setitem__ "a" (Some 40)) d1) = __len__ d1 ∧
  result (get "a" None) (after (update "a" (Some 40)) d1) = inr (Some 40) ∧
  __len__ (after (update "a" (Some 40)) d1) = __len__ d1.
Proof.
  split; [exact prepared_sorted_dict_increasing|].
  exact (proj1 (proj2 (C1_replace_semantics "a" (Some 20) (Some 40) None))
           prepared_sorted_dict prepared_sorted_dict_increasing).
Defined.

Lemma C3_witness :
  (1 ≤ 2)%Z ∧
  ("c" ∉ cache_keys prepared_cache) ∧
  Z.of_nat (length (cache_keys prepared_cache)) = 2 ∧
  ∃ lru rest,
    DictCache.od prepared_cache = lru :: rest ∧
    (∀ k', k' ∈ rest.*1 → used_before prepared_accesses lru.1 k') ∧
    DictCache.od (after (DictCache.__setitem__ "c" 30) prepared_cache) =
    rest ++ [("c", 30)].
Proof.
  assert (1 ≤ 2)%Z as Hmax by lia.
  assert ("c" ∉ cache_keys prepared_cache) as Hnew
    by (apply (bool_decide_unpack _); vm_compute; exact I).
  assert (Z.of_nat (length (cache_keys prepared_cache)) = 2) as Hfull
    by reflexivity.
  split_and!; [exact Hmax|exact Hnew|exact Hfull|].
  exact (proj1 (proj2 (C3_lru_eviction 2 prepared_accesses Hmax))
           "c" 30 Hnew Hfull).
Defined.

Lemma C5_witness :
  increasing prepared_sorted_dict ∧
  MySortedDict.bisect_left "b" prepared_sorted_dict =
    count_keys (λ k', py_lt k' "b") (keys prepared_sorted_dict) ∧
  MySortedDict.bisect_right "b" prepared_sorted_dict =
    count_keys (λ k', py_le k' "b") (keys prepared_sorted_dict).
Proof.
  split; [exact prepared_sorted_dict_increasing|].
  exact (C5_bisect_counts prepared_sorted_dict "b" prepared_sorted_dict_increasing).
Defined.

Lemma C6_witness :
  increasing prepared_sorted_dict ∧
  ("d" ∉ keys prepared_sorted_dict) ∧
  result (__getitem__ "d") prepared_sorted_dict = inl KeyError ∧
  result (pop "d" None) prepared_sorted_dict = inl KeyError ∧
  pop "d" (Some (Some 7)) prepared_sorted_dict = (inr (Some 7), prepared_sorted_dict).
Proof.
  assert ("d" ∉ keys prepared_sorted_dict) as Hd
    by (apply (bool_decide_unpack _); vm_compute; exact I).
  split; [exact prepared_sorted_dict_increasing|]. split; [exact Hd|].
  destruct (proj2 (C6_KeyError_and_pop "d") prepared_sorted_dict
              prepared_sorted_dict_increasing) as (Hget & _ & Hpop & Hdef & _).
  split_and!; [by apply Hget|by apply Hpop|by apply Hdef].
Defined.

Lemma C7_witness :
  (- Z.of_nat (__len__ prepared_sorted_dict) ≤ -1 < 0)%Z ∧
  ∃ kv, items prepared_sorted_dict
          !! Z.to_nat (Z.of_nat (__len__ prepared_sorted_dict) + -1) = Some kv ∧
        MySortedDict.peekitem (-1) prepared_sorted_dict =
        (inr kv, prepared_sorted_dict).
Proof.
  assert (- Z.of_nat (__len__ prepared_sorted_dict) ≤ -1 < 0)%Z as Hi
    by (vm_compute; split; [discriminate|reflexivity]).
  split; [exact Hi|].
  exact (proj2 (proj2 (C7_peekitem prepared_sorted_dict (-1))) Hi).
Defined.

Lemma C8_witness :
  (1 ≤ 2)%Z ∧
  (Z.of_nat (length (cache_keys
     (DictCache.do_accesses (prepared_accesses ++ [DictCache.Write "c" 30])
        (DictCache.__init__ 2)))) ≤ 2)%Z.
Proof.
  assert (1 ≤ 2)%Z as Hmax by lia.
  split; [exact Hmax|].
  exact (C8_capacity 2 (prepared_accesses ++ [DictCache.Write "c" 30]) Hmax).
Defined.

Lemma C9_witness :
  increasing prepared_sorted_dict ∧
  ("d" ∉ keys prepared_sorted_dict) ∧
  ("a", Some 1) ∈ items prepared_sorted_dict ∧
  result (setdefault "d" (Some 40)) prepared_sorted_dict = inr (Some 40) ∧
  setdefault "a" (Some 40) prepared_sorted_dict = (inr (Some 1), prepared_sorted_dict).
Proof.
  assert ("d" ∉ keys prepared_sorted_dict) as Hd
    by (apply (bool_decide_unpack _); vm_compute; exact I).
  assert (("a", Some 1) ∈ items prepared_sorted_dict) as Ha
    by (apply (bool_decide_unpack _); vm_compute; exact I).
  split; [exact prepared_sorted_dict_increasing|].
  split; [exact Hd|]. split; [exact Ha|]. split.
  - exact (proj1 (proj1 (proj2 (C9_setdefault "d" (Some 40)) prepared_sorted_dict
                           prepared_sorted_dict_increasing) Hd)).
  - exact (proj2 (proj2 (C9_setdefault "a" (Some 40)) prepared_sorted_dict
                    prepared_sorted_dict_increasing) (Some 1) Ha).
Defined.

Lemma C10_witness :
  (0 ≤ 0)%Z ∧
  cache_keys (DictCache.do_accesses prepared_accesses (DictCache.__init__ 0)) = [] ∧
  DictCache.__getitem__ "a"
    (DictCache.do_accesses prepared_accesses (DictCache.__init__ 0)) =
  (inl KeyError, DictCache.do_accesses prepared_accesses (DictCache.__init__ 0)).
Proof.
  assert (0 ≤ 0)%Z as Hmax by lia.
  split; [exact Hmax|].
  destruct (C10_nonpositive_maxsize 0 prepared_accesses Hmax) as (_ & Hempty & _ & Hread).
  split; [exact Hempty|exact (Hread "a")].
Defined.

End witnesses.

(** * Further properties of the dictionaries *)

Section lawful_frames.
Context {K V D : Type} `{EqDecision K} `{!BaseDict K V D} `{!PyLen D}.
Context (ok : D → Prop) `{!Lawful ok}.
Implicit Types (d : D) (k : K) (v : V) (e : Entry K V).

(** Two storages that hold the same entries of a key return the same entry
    for it. *)
Lemma get_entry_ext d1 d2 k :
  ok d1 → ok d2 →
  (∀ e, key e = k → e ∈ _entries d1 ↔ e ∈ _entries d2) →
  _get_entry k d1 = _get_entry k d2.
Proof.
  intros H1 H2 Hext.
  destruct (_get_entry k d1) as [e1|] eqn:He1.
  - apply lawful_get_entry in He1 as [He1 Hk]; [|done]. symmetry.
    apply lawful_get_entry; [done|]. split; [by apply Hext|done].
  - destruct (_get_entry k d2) as [e2|] eqn:He2; [|done].
    apply lawful_get_entry in He2 as [He2 Hk]; [|done].
    apply Hext in He2; [|done].
    assert (_get_entry k d1 = Some e2) as Hs by (by apply lawful_get_entry).
    congruence.
Qed.

Lemma setitem_other d k v k' :
  ok d → k' ≠ k →
  _get_entry k' (after (__setitem__ k v) d) = _get_entry k' d.
Proof.
  intros Hd Hne. destruct (setitem_spec ok d k v Hd) as (d' & Heq & Hd' & Hp).
  unfold after. rewrite Heq. simpl. apply get_entry_ext; [done..|].
  intros e He. rewrite Hp, elem_of_cons, list_elem_of_filter. split.
  - intros [->|[_ ?]]; [by destruct Hne|done].
  - intros ?. right. split; [congruence|done].
Qed.

Lemma setitem_len d k v :
  ok d →
  __len__ (after (__setitem__ k v) d) =
  if decide (k ∈ keys d) then __len__ d else S (__len__ d).
Proof.
  intros Hd. destruct (setitem_spec ok d k v Hd) as (d' & Heq & Hd' & Hp).
  unfold after. rewrite Heq. simpl. rewrite !lawful_len by done. rewrite Hp.
  simpl. destruct (decide (k ∈ keys d)) as [Hk|Hk].
  - apply list_elem_of_fmap in Hk as (e & -> & He).
    apply list_elem_of_lookup in He as [i Hi].
    pose proof (delete_Permutation _ _ _ Hi) as Hdel.
    rewrite (filter_other_keys_stored (_entries d) (delete i (_entries d)) e);
      [|by apply lawful_NoDup|done].
    by rewrite Hdel at 2.
  - by rewrite filter_other_keys_missing.
Qed.

Lemma pop_other d k default k' :
  ok d → k' ≠ k →
  _get_entry k' (after (pop k default) d) = _get_entry k' d.
Proof.
  intros Hd Hne. unfold after. destruct (_get_entry k d) as [e|] eqn:He.
  - destruct (pop_stored ok d k e default Hd He) as (d' & -> & Hd' & Hp).
    simpl. apply get_entry_ext; [done..|].
    apply lawful_get_entry in He as [_ Hk]; [|done].
    intros e' He'. rewrite Hp, elem_of_cons. split; [by right|].
    intros [->|?]; [congruence|done].
  - by rewrite pop_missing.
Qed.

Lemma pop_len d k e default :
  ok d → _get_entry k d = Some e →
  __len__ d = S (__len__ (after (pop k default) d)).
Proof.
  intros Hd He. destruct (pop_stored ok d k e default Hd He) as (d' & Heq & Hd' & Hp).
  unfold after. rewrite Heq. simpl. rewrite !lawful_len by done. by rewrite Hp.
Qed.

End lawful_frames.

Section lawful_more.
Context {K V D : Type} `{EqDecision K} `{!BaseDict K V D} `{!PyLen D}.
Context (ok : D → Prop) `{!Lawful ok}.
Implicit Types (d : D) (k : K) (v : V) (e : Entry K V).

Lemma get_lawful d k default :
  ok d →
  after (get k default) d = d ∧
  (∀ v, (k, v) ∈ items d → result (get k default) d = inr v) ∧
  (k ∉ keys d → result (get k default) d = inr default).
Proof.
  intros Hd. split_and!; [done|..].
  - intros v Hkv%(get_entry_stored ok); [|done].
    unfold result. by rewrite (get_stored d k (mkEntry k v)).
  - intros Hk%(get_entry_None ok); [|done].
    unfold result. by rewrite get_missing.
Qed.

Lemma getitem_get_entry d k :
  result (__getitem__ k) d =
  match _get_entry k d with Some e => inr (value e) | None => inl KeyError end.
Proof.
  unfold result. destruct (_get_entry k d) eqn:He.
  - by erewrite getitem_stored.
  - by erewrite getitem_missing.
Qed.

Lemma get_get_entry d k default :
  result (get k default) d = inr (_value_or_default (_get_entry k d) default).
Proof. done. Qed.

Lemma keys_get_entry d k : ok d → k ∈ keys d ↔ is_Some (_get_entry k d).
Proof.
  intros Hd. rewrite <-not_eq_None_Some, (get_entry_None ok) by done.
  split; [auto|]. intros Hn. by apply dec_stable.
Qed.

Lemma setitem_frame_lawful d k v k' default :
  ok d → k' ≠ k →
  result (get k' default) (after (__setitem__ k v) d) = result (get k' default) d ∧
  result (__getitem__ k') (after (__setitem__ k v) d) = result (__getitem__ k') d ∧
  (k' ∈ keys (after (__setitem__ k v) d) ↔ k' ∈ keys d).
Proof.
  intros Hd Hne. pose proof (setitem_other ok d k v k' Hd Hne) as Heq.
  destruct (setitem_spec ok d k v Hd) as (d' & Hrun & Hd' & _).
  assert (ok (after (__setitem__ k v) d)) by (unfold after; by rewrite Hrun).
  rewrite !get_get_entry, !getitem_get_entry, !(keys_get_entry) by done.
  by rewrite Heq.
Qed.

Lemma pop_frame_lawful d k v default k' default' :
  ok d → (k, v) ∈ items d →
  let d' := after (pop k default) d in
  __len__ d = S (__len__ d') ∧
  result (pop k None) d' = inl KeyError ∧
  result (__getitem__ k) d' = inl KeyError ∧
  (k' ≠ k →
     result (get k' default') d' = result (get k' default') d ∧
     (k' ∈ keys d' ↔ k' ∈ keys d)).
Proof.
  intros Hd Hkv d'. pose proof (get_entry_stored ok d k v Hd Hkv) as He.
  destruct (pop_stored ok d k _ default Hd He) as (d0 & Hrun & Hd0 & Hp).
  assert (d' = d0) as Hd'eq by (subst d'; unfold after; by rewrite Hrun).
  assert (ok d') as Hd' by (by rewrite Hd'eq).
  assert (k ∉ keys d') as Hgone.
  { rewrite Hd'eq. pose proof (lawful_NoDup d Hd) as Hnd. unfold keys in *.
    rewrite Hp, fmap_cons in Hnd. by apply NoDup_cons in Hnd as [? _]. }
  split_and!.
  - by apply (pop_len ok d k (mkEntry k v)).
  - apply (get_entry_None ok) in Hgone; [|done].
    unfold result. by rewrite pop_missing.
  - apply (get_entry_None ok) in Hgone; [|done].
    by rewrite getitem_get_entry, Hgone.
  - intros Hne. pose proof (pop_other ok d k default k' Hd Hne) as Heq.
    fold d' in Heq. rewrite !get_get_entry, !keys_get_entry by done.
    by rewrite Heq.
Qed.

Lemma setdefault_twice_lawful d k default1 default2 :
  ok d → k ∉ keys d →
  let d1 := after (setdefault k default1) d in
  setdefault k default2 d1 = (inr default1, d1).
Proof.
  intros Hd Hk d1. apply (get_entry_None ok) in Hk; [|done].
  destruct (setdefault_missing ok d k default1 Hd Hk) as (d' & Hrun & Hd' & Hp).
  assert (d1 = d') as -> by (subst d1; unfold after; by rewrite Hrun).
  rewrite (setdefault_stored d' k (mkEntry k default1)); [done|].
  apply lawful_get_entry; [done|]. split; [|done]. rewrite Hp. left.
Qed.

Lemma views_lawful d :
  ok d →
  keys d = (items d).*1 ∧ values d = (items d).*2 ∧
  __len__ d = length (keys d) ∧ __len__ d = length (items d) ∧
  __len__ d = length (values d) ∧
  (∀ k v, (k, v) ∈ items d ↔ result (__getitem__ k) d = inr v).
Proof.
  intros Hd. unfold keys, values, items.
  rewrite <-!list_fmap_compose, !length_fmap, lawful_len by done.
  split_and!; [done..|]. intros k v. rewrite getitem_get_entry. split.
  - intros Hkv. by rewrite (get_entry_stored ok d k v).
  - destruct (_get_entry k d) as [e|] eqn:He; [|done]. intros [= <-].
    by apply (get_entry_items ok).
Qed.

End lawful_more.

Section more_dictionaries.
Context {K V : Type} `{Countable K} `{!PyOrd K} `{!PyNone V}.

(** X1. [get] never raises and never changes the dictionary ([MyDict], or
    [MySortedDict] with increasing keys): it returns the stored value of a
    stored key and the default for a key that is not stored. *)
Theorem X1_get_total (k : K) (default : V) :
  (∀ m : gmap K V,
     after (get k default) m = m ∧
     (∀ v, (k, v) ∈ items m → result (get k default) m = inr v) ∧
     (k ∉ keys m → result (get k default) m = inr default)) ∧
  (∀ s : list (Entry K V),
     increasing s →
     after (get k default) s = s ∧
     (∀ v, (k, v) ∈ items s → result (get k default) s = inr v) ∧
     (k ∉ keys s → result (get k default) s = inr default)).
Proof.
  split.
  - intros m. by apply (get_lawful (λ _, True)).
  - intros s Hs. by apply (get_lawful increasing).
Qed.

(** X2. Frame of a write: [d[k] = v] leaves every other key as it was, for
    [get], for [d[k']] and for membership in [keys()], and [len()] grows by
    one exactly when [k] was not stored. *)
Theorem X2_setitem_frame (k k' : K) (v default : V) :
  k' ≠ k →
  (∀ m : gmap K V,
     let m' := after (__setitem__ k v) m in
     result (get k' default) m' = result (get k' default) m ∧
     result (__getitem__ k') m' = result (__getitem__ k') m ∧
     (k' ∈ keys m' ↔ k' ∈ keys m) ∧
     __len__ m' = if decide (k ∈ keys m) then __len__ m else S (__len__ m)) ∧
  (∀ s : list (Entry K V),
     increasing s →
     let s' := after (__setitem__ k v) s in
     result (get k' default) s' = result (get k' default) s ∧
     result (__getitem__ k') s' = result (__getitem__ k') s ∧
     (k' ∈ keys s' ↔ k' ∈ keys s) ∧
     __len__ s' = if decide (k ∈ keys s) then __len__ s else S (__len__ s)).
Proof.
  intros Hne. split.
  - intros m m'.
    destruct (setitem_frame_lawful (λ _, True) m k v k' default I Hne) as (? & ? & ?).
    split_and!; [done..|]. by apply (setitem_len (λ _, True)).
  - intros s Hs s'.
    destruct (setitem_frame_lawful increasing s k v k' default Hs Hne) as (? & ? & ?).
    split_and!; [done..|]. by apply (setitem_len increasing).
Qed.

(** X3. Frame of [pop]: popping a stored key makes [len()] one smaller,
    after it the key raises [KeyError] on [pop] without default and on
    [d[k]], and every other key is left as it was. *)
Theorem X3_pop_frame (k k' : K) (v default' : V) (default : option V) :
  (∀ m : gmap K V,
     (k, v) ∈ items m →
     let m' := after (pop k default) m in
     __len__ m = S (__len__ m') ∧
     result (pop k None) m' = inl KeyError ∧
     result (__getitem__ k) m' = inl KeyError ∧
     (k' ≠ k →
        result (get k' default') m' = result (get k' default') m ∧
        (k' ∈ keys m' ↔ k' ∈ keys m))) ∧
  (∀ s : list (Entry K V),
     increasing s → (k, v) ∈ items s →
     let s' := after (pop k default) s in
     __len__ s = S (__len__ s') ∧
     result (pop k None) s' = inl KeyError ∧
     result (__getitem__ k) s' = inl KeyError ∧
     (k' ≠ k →
        result (get k' default') s' = result (get k' default') s ∧
        (k' ∈ keys s' ↔ k' ∈ keys s))).
Proof.
  split.
  - intros m Hkv.
    exact (pop_frame_lawful (λ _, True) m k v default k' default' I Hkv).
  - intros s Hs Hkv.
    exact (pop_frame_lawful increasing s k v default k' default' Hs Hkv).
Qed.

(** X4. [setdefault] twice: after [setdefault(k, d1)] on a key that is not
    stored, [setdefault(k, d2)] returns [d1] and changes nothing. *)
Theorem X4_setdefault_twice (k : K) (default1 default2 : V) :
  (∀ m : gmap K V,
     k ∉ keys m →
     let m1 := after (setdefault k default1) m in
     setdefault k default2 m1 = (inr default1, m1)) ∧
  (∀ s : list (Entry K V),
     increasing s → k ∉ keys s →
     let s1 := after (setdefault k default1) s in
     setdefault k default2 s1 = (inr default1, s1)).
Proof.
  split.
  - intros m Hk. by apply (setdefault_twice_lawful (λ _, True)).
  - intros s Hs Hk. by apply (setdefault_twice_lawful increasing).
Qed.

(** X5. The views agree: [keys()] and [values()] are the two columns of
    [items()], [len()] is the length of each of them, and [(k, v)] is in
    [items()] exactly when [d[k]] returns [v]. *)
Theorem X5_views_agree :
  (∀ m : gmap K V,
     keys m = (items m).*1 ∧ values m = (items m).*2 ∧
     __len__ m = length (keys m) ∧ __len__ m = length (items m) ∧
     __len__ m = length (values m) ∧
     (∀ k v, (k, v) ∈ items m ↔ result (__getitem__ k) m = inr v)) ∧
  (∀ s : list (Entry K V),
     increasing s →
     keys s = (items s).*1 ∧ values s = (items s).*2 ∧
     __len__ s = length (keys s) ∧ __len__ s = length (items s) ∧
     __len__ s = length (values s) ∧
     (∀ k v, (k, v) ∈ items s ↔ result (__getitem__ k) s = inr v)).
Proof.
  split.
  - intros m. by apply (views_lawful (λ _, True)).
  - intros s Hs. by apply (views_lawful increasing).
Qed.

End more_dictionaries.

(** ** The storage after a write and after a removal *)

Section my_dict_closed_forms.
Context {K V : Type} `{Countable K} `{!PyNone V}.
Implicit Types (m : gmap K V) (k : K) (v : V) (e : Entry K V).

Lemma MyDict_contains_keys e m : PySet.contains e m = true ↔ key e ∈ keys m.
Proof.
  rewrite set_contains_true, MyDict_keys, list_elem_of_fmap. split.
  - intros [v Hv]. exists (key e, v). split; [done|].
    by apply elem_of_map_to_list.
  - intros ([k v] & -> & Hkv%elem_of_map_to_list). by exists v.
Qed.

Lemma MyDict_items m k v : (k, v) ∈ items m ↔ m !! k = Some v.
Proof.
  rewrite elem_of_items. unfold_MyDict.
  by rewrite (elem_of_set_iter m (mkEntry k v)).
Qed.

(** On the set of [MyDict], a write is the insertion of the pair. *)
Lemma MyDict_setitem m k v : __setitem__ k v m = (inr tt, <[k:=v]> m).
Proof.
  unfold __setitem__. run_method. unfold_MyDict. rewrite MyDict_get_entry.
  destruct (m !! k) as [v0|] eqn:Hk; simpl.
  - unfold MyDict._remove_entry, PySet.remove.
    rewrite (proj2 (set_contains_true (mkEntry k v0) m)) by (simpl; eauto).
    simpl. unfold MyDict._add_entry, PySet.add.
    rewrite (proj2 (set_contains_false (mkEntry k v) (delete k m)))
      by (simpl; apply lookup_delete_eq).
    simpl. by rewrite insert_delete_eq.
  - unfold MyDict._add_entry, PySet.add.
    by rewrite (proj2 (set_contains_false (mkEntry k v) m)).
Qed.


End my_dict_closed_forms.

Section sorted_round_trips.
Context {K V : Type} `{EqDecision K} `{!PyOrd K}.
Implicit Types (s : list (Entry K V)) (x y e : Entry K V).

(** A sequence has one position that splits it by a test. *)
Lemma split_point_unique (p : Entry K V → bool) s r1 r2 :
  r1 ≤ length s → r2 ≤ length s →
  (∀ i e, i < r1 → s !! i = Some e → p e = true) →
  (∀ i e, r1 ≤ i → s !! i = Some e → p e = false) →
  (∀ i e, i < r2 → s !! i = Some e → p e = true) →
  (∀ i e, r2 ≤ i → s !! i = Some e → p e = false) →
  r1 = r2.
Proof.
  intros. rewrite <-(split_point_count p s r1), <-(split_point_count p s r2);
    done.
Qed.




(** Two increasing sequences with the same entries are one sequence. *)
Lemma increasing_unique s1 s2 :
  increasing s1 → increasing s2 → s1 ≡ₚ s2 → s1 = s2.
Proof.
  intros H1 H2 Hp. eapply (StronglySorted_unique_strong key_lt); [|done..].
  intros x y _ _ Hxy Hyx. unfold key_lt in *.
  by rewrite (py_lt_asym _ _ Hxy) in Hyx.
Qed.

End sorted_round_trips.

Section round_trips.
Context {K V : Type} `{Countable K} `{!PyOrd K} `{!PyNone V}.
Implicit Types (m : gmap K V) (s : list (Entry K V)) (k : K) (v : V).


Lemma sorted_setitem_missing s k v :
  increasing s → k ∉ keys s →
  __setitem__ k v s = (inr tt, SortedSet.add (mkEntry k v) s).
Proof.
  intros Hs Hk%(get_entry_None increasing); [|done].
  unfold __setitem__. run_method. simpl in Hk. by rewrite Hk.
Qed.




(** X7. The storage methods compare entries by key alone: [_add_entry] of
    an entry whose key is stored changes nothing, whatever its value, so the
    stored value stays; [_remove_entry] of an entry whose key is not stored
    raises [KeyError]; [_remove_entry] of an entry with the key of a stored
    pair removes that pair, whatever the value of the entry. *)
Theorem X7_storage_methods_by_key (k : K) (v v' : V) :
  (∀ m : gmap K V,
     (k ∈ keys m → _add_entry (mkEntry k v') m = m) ∧
     (k ∉ keys m → _remove_entry (mkEntry k v') m = inl KeyError) ∧
     ((k, v) ∈ items m →
        ∃ m', _remove_entry (mkEntry k v') m = inr m' ∧
              (items m ≡ₚ (k, v) :: items m'))) ∧
  (∀ s : list (Entry K V),
     increasing s →
     (k ∈ keys s → _add_entry (mkEntry k v') s = s) ∧
     (k ∉ keys s → _remove_entry (mkEntry k v') s = inl KeyError) ∧
     ((k, v) ∈ items s →
        ∃ s', _remove_entry (mkEntry k v') s = inr s' ∧
              (items s ≡ₚ (k, v) :: items s'))).
Proof.
  split.
  - intros m. split_and!.
    + intros Hk%(MyDict_contains_keys (mkEntry k v')). unfold_MyDict.
      unfold PySet.add. by rewrite Hk.
    + intros Hk. unfold_MyDict. unfold PySet.remove.
      assert (PySet.contains (mkEntry k v') m = false) as ->; [|done].
      apply not_true_iff_false. by rewrite MyDict_contains_keys.
    + intros Hkv. exists (delete k m). unfold_MyDict. unfold PySet.remove.
      assert (m !! k = Some v) as Hm by (by apply MyDict_items).
      rewrite (proj2 (set_contains_true (mkEntry k v') m)) by (simpl; eauto).
      split; [done|]. unfold items. unfold_MyDict. unfold PySet.iter.
      rewrite <-(map_to_list_delete m k v) by done. by rewrite !fmap_cons.
  - intros s Hs. split_and!.
    + intros Hk. unfold keys in Hk. unfold_MySortedDict. apply add_stored.
      apply not_false_iff_true. rewrite contains_keys. intros Hn. by apply Hn.
    + intros Hk. unfold_MySortedDict. by apply remove_missing, contains_keys.
    + intros Hkv%elem_of_items. unfold_MySortedDict.
      destruct (remove_stored (mkEntry k v') s Hs) as (e & s' & Hr & Hke & He & _ & Hp).
      { apply contains_true. by exists (mkEntry k v). }
      exists s'. split; [done|].
      assert (e = mkEntry k v) as ->.
      { by apply (entries_key_inj increasing s). }
      unfold items. unfold_MySortedDict. by rewrite Hp.
Qed.


(** X9. The storage of a [MySortedDict] is decided by its pairs: two
    storages with increasing keys that hold the same pairs are equal, and so
    are their [keys()], [values()] and [items()]. *)
Theorem X9_sorted_storage_canonical (s1 s2 : list (Entry K V)) :
  increasing s1 → increasing s2 → items s1 ≡ₚ items s2 →
  s1 = s2 ∧ items s1 = items s2 ∧ keys s1 = keys s2 ∧ values s1 = values s2.
Proof.
  intros H1 H2 Hp. assert (s1 = s2) as ->; [|done].
  apply increasing_unique; [done..|].
  assert (∀ s : list (Entry K V),
    s = (λ kv, mkEntry kv.1 kv.2) <$> items s) as Hback.
  { intros s. unfold items. unfold_MySortedDict.
    rewrite <-list_fmap_compose. rewrite <-(list_fmap_id s) at 1.
    apply list_fmap_ext. by intros _ [??] _. }
  rewrite (Hback s1), (Hback s2). by rewrite Hp.
Qed.

End round_trips.

(** ** Two lawful storages that hold the same pairs *)

Section two_storages.
Context {K V D1 D2 : Type} `{EqDecision K}.
Context `{!BaseDict K V D1} `{!PyLen D1} `{!BaseDict K V D2} `{!PyLen D2}.
Context (ok1 : D1 → Prop) (ok2 : D2 → Prop) `{!Lawful ok1} `{!Lawful ok2}.
Implicit Types (k : K) (v : V) (e : Entry K V).

Lemma elem_of_entries_items {D} `{!BaseDict K V D} (d : D) e :
  e ∈ _entries d ↔ (key e, value e) ∈ items d.
Proof. rewrite elem_of_items. by destruct e. Qed.

Lemma get_entry_same (d1 : D1) (d2 : D2) k :
  ok1 d1 → ok2 d2 → items d1 ≡ₚ items d2 →
  _get_entry k d1 = _get_entry k d2.
Proof.
  intros H1 H2 Hp.
  assert (∀ e, e ∈ _entries d1 ↔ e ∈ _entries d2) as Hext.
  { intros e. by rewrite !elem_of_entries_items, Hp. }
  destruct (_get_entry k d1) as [e1|] eqn:He1.
  - apply (lawful_get_entry (ok := ok1)) in He1 as [He1 Hk]; [|done].
    symmetry. apply (lawful_get_entry (ok := ok2)); [done|].
    split; [by apply Hext|done].
  - destruct (_get_entry k d2) as [e2|] eqn:He2; [|done].
    apply (lawful_get_entry (ok := ok2)) in He2 as [He2 Hk]; [|done].
    apply Hext in He2.
    assert (_get_entry k d1 = Some e2) as Hs
      by (by apply (lawful_get_entry (ok := ok1))).
    congruence.
Qed.

Lemma items_filter (l : list (Entry K V)) k :
  (λ e, (key e, value e)) <$> filter (λ e, key e ≠ k) l =
  filter (λ kv : K * V, kv.1 ≠ k) ((λ e, (key e, value e)) <$> l).
Proof.
  induction l as [|e l IH]; [done|]. rewrite fmap_cons.
  destruct (decide (key e = k)).
  - by rewrite !filter_cons_False by naive_solver.
  - rewrite !filter_cons_True by done. rewrite fmap_cons. by f_equal.
Qed.

Lemma setitem_items {D} `{!BaseDict K V D} `{!PyLen D} (ok : D → Prop)
    `{!Lawful ok} (d : D) k v :
  ok d →
  result (__setitem__ k v) d = inr tt ∧ ok (after (__setitem__ k v) d) ∧
  items (after (__setitem__ k v) d) ≡ₚ
    (k, v) :: filter (λ kv : K * V, kv.1 ≠ k) (items d).
Proof.
  intros Hd. destruct (setitem_spec ok d k v Hd) as (d' & Hr & Hd' & Hp).
  unfold result, after. rewrite Hr. simpl. split_and!; [done..|].
  unfold items. by rewrite Hp, fmap_cons, items_filter.
Qed.

(** A call returns the same on both storages and leaves them with the same
    pairs. *)
Lemma call_same (c : call) (d1 : D1) (d2 : D2) :
  ok1 d1 → ok2 d2 → items d1 ≡ₚ items d2 →
  call_result c d1 = call_result c d2 ∧
  ok1 (do_call c d1) ∧ ok2 (do_call c d2) ∧
  items (do_call c d1) ≡ₚ items (do_call c d2).
Proof.
  intros H1 H2 Hp.
  assert (∀ k, _get_entry k d1 = _get_entry k d2) as Hget
    by (intros k; by apply get_entry_same).
  assert (∀ k v,
    returned (λ _ : (), None) (result (__setitem__ k v) d1) =
      returned (λ _ : (), @None V) (result (__setitem__ k v) d2) ∧
    ok1 (after (__setitem__ k v) d1) ∧ ok2 (after (__setitem__ k v) d2) ∧
    items (after (__setitem__ k v) d1) ≡ₚ items (after (__setitem__ k v) d2))
    as Hset.
  { intros k v.
    destruct (setitem_items ok1 d1 k v H1) as (-> & ? & ->).
    destruct (setitem_items ok2 d2 k v H2) as (-> & ? & ->).
    split_and!; [done..|]. by rewrite Hp. }
  destruct c as [k v|k|k default|k default|k default|k v]; simpl.
  - apply Hset.
  - unfold result, after. specialize (Hget k).
    destruct (_get_entry k d2) as [e|] eqn:He.
    + by rewrite (getitem_stored d1 k e), (getitem_stored d2 k e).
    + by rewrite (getitem_missing d1 k), (getitem_missing d2 k).
  - unfold result, after, get. run_method. by rewrite Hget.
  - unfold result, after. specialize (Hget k).
    destruct (_get_entry k d2) as [e|] eqn:He.
    + by rewrite (setdefault_stored d1 k e), (setdefault_stored d2 k e).
    + destruct (setdefault_missing ok1 d1 k default H1 Hget) as (d1' & -> & ? & Hp1).
      destruct (setdefault_missing ok2 d2 k default H2 He) as (d2' & -> & ? & Hp2).
      split_and!; [done..|]. simpl. unfold items in *.
      by rewrite Hp1, Hp2, !fmap_cons, Hp.
  - unfold result, after. specialize (Hget k).
    destruct (_get_entry k d2) as [e|] eqn:He.
    + destruct (pop_stored ok1 d1 k e default H1 Hget) as (d1' & -> & ? & Hp1).
      destruct (pop_stored ok2 d2 k e default H2 He) as (d2' & -> & ? & Hp2).
      split_and!; [done..|]. simpl. unfold items in *.
      rewrite Hp1, Hp2, !fmap_cons in Hp. by apply Permutation_cons_inv in Hp.
    + by rewrite (pop_missing d1 k), (pop_missing d2 k).
  - apply Hset.
Qed.

Lemma calls_same (cs : list call) (d1 : D1) (d2 : D2) :
  ok1 d1 → ok2 d2 → items d1 ≡ₚ items d2 →
  ok1 (do_calls cs d1) ∧ ok2 (do_calls cs d2) ∧
  items (do_calls cs d1) ≡ₚ items (do_calls cs d2).
Proof.
  revert d1 d2. induction cs as [|c cs IH]; intros d1 d2 H1 H2 Hp; [done|].
  simpl. destruct (call_same c d1 d2 H1 H2 Hp) as (_ & ? & ? & ?). by apply IH.
Qed.

End two_storages.

Section same_behaviour.
Context {K V : Type} `{Countable K} `{!PyOrd K} `{!PyNone V}.

(** X10. [MyDict] and [MySortedDict] behave alike: after the same program
    of calls on two empty dictionaries they hold the same pairs, up to the
    order of [items()], and every further call returns the same value or
    raises the same exception on both. *)
Theorem X10_same_behaviour (cs : list call) (c : call) :
  let m : gmap K V := do_calls cs MyDict.__init__ in
  let s : list (Entry K V) := do_calls cs MySortedDict.__init__ in
  items m ≡ₚ items s ∧ call_result c m = call_result c s.
Proof.
  intros m s.
  destruct (calls_same (λ _, True) increasing cs
              (MyDict.__init__ : gmap K V) (MySortedDict.__init__ : list (Entry K V)))
    as (Hm & Hs & Hp).
  - done.
  - constructor.
  - unfold items. unfold_MyDict. unfold PySet.iter, MyDict.__init__, PySet.empty.
    by rewrite map_to_list_empty.
  - split; [done|]. by apply (call_same (λ _, True) increasing c m s).
Qed.

End same_behaviour.

(** ** Entries *)

Section entry_facts.
Context {K V : Type} `{EqDecision K} `{!PyOrd K} `{!PyHash K}.


Lemma py_le_negb (x y : K) : py_le x y = negb (py_lt y x).
Proof.
  unfold py_le. destruct (py_lt_trichotomy x y) as [Hlt|[->|Hgt]].
  - by rewrite Hlt, (py_lt_asym _ _ Hlt).
  - by rewrite py_lt_irrefl, bool_decide_eq_true_2.
  - rewrite Hgt, (py_lt_asym _ _ Hgt), bool_decide_eq_false_2; [done|].
    by apply not_eq_sym, py_lt_ne.
Qed.

End entry_facts.

(** ** Strings of dictionaries *)

Section str_facts.
Context {K V : Type} `{Countable K} `{!PyOrd K} `{!PyNone V}.
Context `{!PyStr K} `{!PyStr V}.
Local Open Scope string_scope.

Lemma string_append_assoc (a b c : string) : (a +:+ b) +:+ c = a +:+ (b +:+ c).
Proof.
  induction a as [|x a IH]; [done|].
  change (String x ((a +:+ b) +:+ c) = String x (a +:+ (b +:+ c))). by f_equal.
Qed.

(** X12. [str] of an empty dictionary is ["{}"], and [str] of a dictionary
    with the one pair [(k, v)] is the pair between braces, as
    ['k': v]. *)
Theorem X12_str_small (k : K) (v : V) :
  __str__ (MyDict.__init__ : gmap K V) = "{}" ∧
  __str__ (after (__setitem__ k v) (MyDict.__init__ : gmap K V)) =
    "{'" +:+ py_str k +:+ "': " +:+ py_str v +:+ "}" ∧
  __str__ (MySortedDict.__init__ : list (Entry K V)) = "{}" ∧
  __str__ (after (__setitem__ k v) (MySortedDict.__init__ : list (Entry K V))) =
    "{'" +:+ py_str k +:+ "': " +:+ py_str v +:+ "}".
Proof.
  split_and!.
  - unfold __str__. unfold_MyDict.
    unfold PySet.iter, MyDict.__init__, PySet.empty.
    by rewrite map_to_list_empty.
  - unfold after. rewrite MyDict_setitem. unfold __str__. unfold_MyDict.
    unfold PySet.iter, MyDict.__init__, PySet.empty.
    rewrite insert_empty, map_to_list_singleton. simpl.
    unfold Entry__str__. simpl. by rewrite !string_append_assoc.
  - done.
  - unfold after. rewrite sorted_setitem_missing; [|constructor|apply not_elem_of_nil].
    unfold __str__. unfold_MySortedDict.
    unfold SortedSet.add, MySortedDict.__init__, SortedSet.empty. simpl.
    rewrite take_nil, drop_nil. simpl.
    unfold Entry__str__. simpl. by rewrite !string_append_assoc.
Qed.

End str_facts.

(** ** Positions in a sorted dictionary *)

Section positions.
Context {K V : Type} `{EqDecision K} `{!PyOrd K} `{!PyNone V}.
Implicit Types (s : list (Entry K V)) (k : K) (v : V) (e : Entry K V).

Lemma peekitem_nat s j e :
  s !! j = Some e →
  MySortedDict.peekitem (Z.of_nat j) s = (inr (key e, value e), s).
Proof.
  intros Hj. pose proof (lookup_lt_Some _ _ _ Hj).
  unfold MySortedDict.peekitem. run_method. unfold_MySortedDict.
  rewrite decide_False by lia. simpl. by rewrite getitem_nat, Hj.
Qed.

Lemma peekitem_inr s i k v :
  result (MySortedDict.peekitem i) s = inr (k, v) →
  ∃ j, Z.of_nat j = (if decide (i < 0)%Z then Z.of_nat (length s) + i else i)%Z ∧
       s !! j = Some (mkEntry k v).
Proof.
  unfold MySortedDict.peekitem, result. run_method. unfold_MySortedDict.
  destruct (decide (_ ∨ _)) as [|Hin]; [done|]. simpl.
  unfold SortedSet.getitem.
  destruct (decide (i < 0)%Z) as [Hi|Hi].
  - destruct (decide (_ < 0)%Z); [done|].
    destruct (s !! _) as [[k' v']|] eqn:He; [|done]. simpl. intros [= -> ->].
    eexists. split; [|done]. lia.
  - destruct (decide (_ < 0)%Z); [done|].
    destruct (s !! _) as [[k' v']|] eqn:He; [|done]. simpl. intros [= -> ->].
    eexists. split; [|done]. lia.
Qed.

(** The position of the leftmost search, when no entry has the key. *)
Lemma bisect_right_missing k s :
  increasing s → k ∉ keys s →
  MySortedDict.bisect_right k s = MySortedDict.bisect_left k s.
Proof.
  intros Hs Hk. unfold MySortedDict.bisect_left, MySortedDict.bisect_right.
  set (x := mkEntry k py_None).
  destruct (bisect_left_spec x s Hs) as (Hle & Hlt & Hge).
  destruct (bisect_right_spec x s Hs) as (Hle' & Hlt' & Hge').
  apply (split_point_unique (λ e, negb (py_lt (key x) (key e))) s); [done..| | | |].
  - intros i e ??. by rewrite (Hlt' i e).
  - intros i e ??. by rewrite (Hge' i e).
  - intros i e Hi He. by rewrite (py_lt_asym _ _ (Hlt i e Hi He)).
  - intros i e Hi He. specialize (Hge i e Hi He).
    destruct (py_lt_trichotomy (key e) (key x)) as [?|[Heq|Hgt]];
      [congruence| |by rewrite Hgt].
    destruct Hk. unfold keys. unfold_MySortedDict. rewrite <-Heq.
    apply list_elem_of_fmap_2. by eapply list_elem_of_lookup_2.
Qed.

Lemma bisect_right_stored k s i e :
  increasing s → s !! i = Some e → key e = k →
  MySortedDict.bisect_right k s = S i.
Proof.
  intros Hs Hi Hk. unfold MySortedDict.bisect_right.
  set (x := mkEntry k py_None).
  destruct (bisect_right_spec x s Hs) as (Hle' & Hlt' & Hge').
  pose proof (lookup_lt_Some _ _ _ Hi).
  apply (split_point_unique (λ e, negb (py_lt (key x) (key e))) s); [done|lia|..].
  - intros j e' ??. by rewrite (Hlt' j e').
  - intros j e' ??. by rewrite (Hge' j e').
  - intros j e' Hj He'. simpl. destruct (decide (j = i)) as [->|].
    + assert (e' = e) as -> by congruence. by rewrite Hk, py_lt_irrefl.
    + pose proof (increasing_lookup s j i e' e Hs ltac:(lia) He' Hi) as Hlt.
      unfold key_lt in Hlt. rewrite Hk in Hlt. by rewrite (py_lt_asym _ _ Hlt).
  - intros j e' Hj He'. simpl.
    pose proof (increasing_lookup s i j e e' Hs ltac:(lia) Hi He') as Hlt.
    unfold key_lt in Hlt. rewrite Hk in Hlt. by rewrite Hlt.
Qed.

(** X13. The two searches bracket the key: on a [MySortedDict] with
    increasing keys, [bisect_left(k) <= bisect_right(k) <= len()], and
    [bisect_right(k)] is [bisect_left(k) + 1] when [k] is stored and
    [bisect_left(k)] when it is not. *)
Theorem X13_bisect_bracket (s : list (Entry K V)) (k : K) :
  increasing s →
  MySortedDict.bisect_left k s ≤ MySortedDict.bisect_right k s ≤ __len__ s ∧
  MySortedDict.bisect_right k s =
    MySortedDict.bisect_left k s + (if decide (k ∈ keys s) then 1 else 0).
Proof.
  intros Hs. unfold __len__, MySortedDict_len.
  assert (MySortedDict.bisect_right k s ≤ MySortedDict.__len__ s) as Hlen.
  { unfold MySortedDict.bisect_right.
    by destruct (bisect_right_spec (mkEntry k py_None) s Hs) as (? & _). }
  destruct (decide (k ∈ keys s)) as [Hk|Hk].
  - unfold keys in Hk. unfold_MySortedDict.
    apply list_elem_of_fmap in Hk as (e & -> & [i Hi]%list_elem_of_lookup).
    rewrite (bisect_right_stored (key e) s i e) in * by done.
    unfold MySortedDict.bisect_left.
    rewrite (bisect_left_stored (mkEntry (key e) py_None) s i e) by done. lia.
  - rewrite bisect_right_missing in * by done. lia.
Qed.

(** X14. Positions and keys correspond: for a stored pair [(k, v)],
    [peekitem(bisect_left(k))] returns [(k, v)]; and when [peekitem(i)]
    returns [(k, v)], [bisect_left(k)] is the position [i] counts, [i] itself
    or [len() + i] for a negative [i]. *)
Theorem X14_peekitem_bisect (s : list (Entry K V)) :
  increasing s →
  (∀ k v, (k, v) ∈ items s →
     MySortedDict.peekitem (Z.of_nat (MySortedDict.bisect_left k s)) s =
     (inr (k, v), s)) ∧
  (∀ i k v, result (MySortedDict.peekitem i) s = inr (k, v) →
     Z.of_nat (MySortedDict.bisect_left k s) =
     if decide (i < 0)%Z then (Z.of_nat (__len__ s) + i)%Z else i).
Proof.
  intros Hs. split.
  - intros k v [i Hi]%elem_of_items%list_elem_of_lookup.
    unfold_MySortedDict. unfold MySortedDict.bisect_left.
    rewrite (bisect_left_stored (mkEntry k py_None) s i (mkEntry k v)) by done.
    by rewrite (peekitem_nat s i (mkEntry k v)).
  - intros i k v (j & Hj & He)%peekitem_inr.
    unfold __len__, MySortedDict_len. unfold_MySortedDict.
    unfold MySortedDict.bisect_left.
    by rewrite (bisect_left_stored (mkEntry k py_None) s j (mkEntry k v)).
Qed.

(** X15. The ends of a sorted dictionary: on a non-empty [MySortedDict]
    with increasing keys, [peekitem(0)] returns the pair of the smallest
    stored key and [peekitem(-1)] the pair of the largest. *)
Theorem X15_peekitem_ends (s : list (Entry K V)) :
  increasing s → 0 < __len__ s →
  ∃ k0 v0 k1 v1,
    MySortedDict.peekitem 0 s = (inr (k0, v0), s) ∧
    MySortedDict.peekitem (-1) s = (inr (k1, v1), s) ∧
    (k0, v0) ∈ items s ∧ (k1, v1) ∈ items s ∧
    ∀ k, k ∈ keys s → py_le k0 k = true ∧ py_le k k1 = true.
Proof.
  intros Hs Hlen. unfold __len__, MySortedDict_len in *. unfold_MySortedDict.
  destruct (lookup_lt_is_Some_2 s 0 Hlen) as [e0 H0].
  destruct (lookup_lt_is_Some_2 s (length s - 1)) as [e1 H1]; [lia|].
  exists (key e0), (value e0), (key e1), (value e1). split_and!.
  - by apply (peekitem_nat s 0 e0).
  - unfold MySortedDict.peekitem. run_method. unfold_MySortedDict.
    rewrite decide_False by lia. simpl. unfold SortedSet.getitem.
    destruct (decide (-1 < 0)%Z); [|lia]. destruct (decide (_ < 0)%Z); [lia|].
    replace (Z.to_nat (-1 + Z.of_nat (length s))) with (length s - 1) by lia.
    by rewrite H1.
  - apply elem_of_entries_items. by eapply list_elem_of_lookup_2.
  - apply elem_of_entries_items. by eapply list_elem_of_lookup_2.
  - intros k. unfold keys. unfold_MySortedDict.
    intros (e & -> & [i Hi]%list_elem_of_lookup)%list_elem_of_fmap.
    pose proof (lookup_lt_Some _ _ _ Hi). rewrite !py_le_negb. split.
    + destruct (decide (i = 0)) as [->|].
      * assert (e = e0) as -> by congruence. by rewrite py_lt_irrefl.
      * pose proof (increasing_lookup s 0 i e0 e Hs ltac:(lia) H0 Hi) as Hlt.
        by rewrite (py_lt_asym _ _ Hlt).
    + destruct (decide (i = length s - 1)) as [->|].
      * assert (e = e1) as -> by congruence. by rewrite py_lt_irrefl.
      * pose proof (increasing_lookup s i (length s - 1) e e1 Hs ltac:(lia) Hi H1)
          as Hlt.
        by rewrite (py_lt_asym _ _ Hlt).
Qed.

(** X16. The searches find the neighbours of a key: when [bisect_left(k)]
    is [len()], every stored key is below [k]; otherwise
    [peekitem(bisect_left(k))] returns the pair of the smallest stored key
    that is not below [k].  In the same way [peekitem(bisect_right(k))]
    returns the pair of the smallest stored key above [k], and every stored
    key is at most [k] when [bisect_right(k)] is [len()]. *)
Theorem X16_bisect_neighbours (s : list (Entry K V)) (k : K) :
  increasing s →
  (MySortedDict.bisect_left k s = __len__ s →
     ∀ k', k' ∈ keys s → py_lt k' k = true) ∧
  (MySortedDict.bisect_left k s < __len__ s →
     ∃ k1 v1,
       MySortedDict.peekitem (Z.of_nat (MySortedDict.bisect_left k s)) s =
         (inr (k1, v1), s) ∧
       py_le k k1 = true ∧
       ∀ k', k' ∈ keys s → py_le k k' = true → py_le k1 k' = true) ∧
  (MySortedDict.bisect_right k s = __len__ s →
     ∀ k', k' ∈ keys s → py_le k' k = true) ∧
  (MySortedDict.bisect_right k s < __len__ s →
     ∃ k1 v1,
       MySortedDict.peekitem (Z.of_nat (MySortedDict.bisect_right k s)) s =
         (inr (k1, v1), s) ∧
       py_lt k k1 = true ∧
       ∀ k', k' ∈ keys s → py_lt k k' = true → py_le k1 k' = true).
Proof.
  intros Hs. unfold MySortedDict.bisect_left, MySortedDict.bisect_right.
  set (x := mkEntry k py_None).
  destruct (bisect_left_spec x s Hs) as (Hle & Hlt & Hge).
  destruct (bisect_right_spec x s Hs) as (Hle' & Hlt' & Hge').
  unfold keys, __len__, MySortedDict_len. unfold_MySortedDict.
  assert (∀ i j e e', i ≤ j → s !! i = Some e → s !! j = Some e' →
    py_le (key e) (key e') = true) as Hmono.
  { intros i j e e' Hij Hi Hj. rewrite py_le_negb.
    destruct (decide (i = j)) as [->|].
    - assert (e' = e) as -> by congruence. by rewrite py_lt_irrefl.
    - pose proof (increasing_lookup s i j e e' Hs ltac:(lia) Hi Hj) as Hk.
      by rewrite (py_lt_asym _ _ Hk). }
  split_and!.
  - intros Hall k' (e & -> & [i Hi]%list_elem_of_lookup)%list_elem_of_fmap.
    apply (Hlt i e); [|done]. apply lookup_lt_Some in Hi. lia.
  - intros Hin. destruct (lookup_lt_is_Some_2 s _ Hin) as [e1 H1].
    exists (key e1), (value e1). split_and!.
    + by apply peekitem_nat.
    + rewrite py_le_negb. by rewrite (Hge _ e1 (Nat.le_refl _) H1).
    + intros k' (e & -> & [i Hi]%list_elem_of_lookup)%list_elem_of_fmap Hk.
      rewrite py_le_negb in Hk.
      destruct (decide (i < SortedSet.bisect_left x s)) as [Hi'|Hi'].
      * by rewrite (Hlt i e Hi' Hi) in Hk.
      * apply (Hmono (SortedSet.bisect_left x s) i); [lia|done..].
  - intros Hall k' (e & -> & [i Hi]%list_elem_of_lookup)%list_elem_of_fmap.
    rewrite py_le_negb. rewrite (Hlt' i e); [done| |done].
    apply lookup_lt_Some in Hi. lia.
  - intros Hin. destruct (lookup_lt_is_Some_2 s _ Hin) as [e1 H1].
    exists (key e1), (value e1). split_and!.
    + by apply peekitem_nat.
    + by apply (Hge' _ e1 (Nat.le_refl _) H1).
    + intros k' (e & -> & [i Hi]%list_elem_of_lookup)%list_elem_of_fmap Hk.
      destruct (decide (i < SortedSet.bisect_right x s)) as [Hi'|Hi'].
      * by rewrite (Hlt' i e Hi' Hi) in Hk.
      * apply (Hmono (SortedSet.bisect_right x s) i); [lia|done..].
Qed.

End positions.

(** * Further properties of DictCache *)

Section dict_cache_more.
Context {K V : Type} `{EqDecision K}.
Implicit Types (c : DictCache.t (K := K) (V := V)) (k : K) (v : V).
Implicit Types (od : list (K * V)).
Implicit Types (acs : list (DictCache.access (K := K) (V := V))).

Lemma od_others_last od k v :
  k ∉ od.*1 → od_others k (od ++ [(k, v)]) = od.
Proof.
  intros Hk. unfold od_others. rewrite filter_app, filter_cons_False, filter_nil.
  - rewrite app_nil_r. by apply od_others_missing.
  - unfold OrderedDict.has_key. simpl.
    rewrite bool_decide_eq_true_2 by done. by intros [].
Qed.

Lemma od_others_not_elem k od : k ∉ (od_others k od).*1.
Proof.
  rewrite od_others_keys. intros [? _]%list_elem_of_filter. done.
Qed.

Lemma elem_of_od_others k od k' v' :
  (k', v') ∈ od_others k od ↔ k' ≠ k ∧ (k', v') ∈ od.
Proof.
  unfold od_others. rewrite list_elem_of_filter. unfold OrderedDict.has_key.
  simpl. destruct (decide (k' = k)) as [->|Hne].
  - rewrite bool_decide_eq_true_2 by done. simpl.
    split; [by intros [[] _]|by intros [? _]].
  - rewrite bool_decide_eq_false_2 by done. simpl.
    split; [by intros [_ ?]|by intros [_ ?]].
Qed.

(** Reading the key of the last item returns its value and changes
    nothing. *)
Lemma read_last od k v ms :
  k ∉ od.*1 →
  DictCache.__getitem__ k (DictCache.mk (od ++ [(k, v)]) ms) =
  (inr v, DictCache.mk (od ++ [(k, v)]) ms).
Proof.
  intros Hk.
  destruct (read_stored (DictCache.mk (od ++ [(k, v)]) ms) k) as (v' & Hin & ->).
  { unfold cache_keys. simpl. rewrite fmap_app. apply elem_of_app. right. left. }
  simpl in *. rewrite od_others_last by done.
  apply elem_of_app in Hin as [Hin|Hin%list_elem_of_singleton].
  - destruct Hk. apply list_elem_of_fmap. by exists (k, v').
  - by simplify_eq.
Qed.

(** After a write into a cache with [maxsize >= 1] the written item is the
    last one, and no other item has its key. *)
Lemma write_shape c k v :
  (1 ≤ DictCache.maxsize c)%Z →
  ∃ od', after (DictCache.__setitem__ k v) c =
           DictCache.mk (od' ++ [(k, v)]) (DictCache.maxsize c) ∧
         (k ∉ od'.*1) ∧
         (∀ kv, kv ∈ od' → kv ∈ DictCache.od c).
Proof.
  intros Hmax. unfold after.
  destruct (decide (k ∈ cache_keys c)) as [Hk|Hk].
  - rewrite write_stored by done. simpl.
    exists (od_others k (DictCache.od c)).
    split_and!; [done|apply od_others_not_elem|].
    intros [k' v']. rewrite elem_of_od_others. tauto.
  - rewrite write_new by done. simpl. destruct (decide _) as [Hgt|Hle].
    + destruct (DictCache.od c) as [|kv od'] eqn:Hod; simpl in *; [lia|].
      exists od'. split_and!; [done| |intros; by right].
      unfold cache_keys in Hk. rewrite Hod, fmap_cons in Hk.
      by apply not_elem_of_cons in Hk as [_ ?].
    + by exists (DictCache.od c).
Qed.

(** The items after an access are the item of a write and items that were
    stored. *)
Lemma access_items a c k' v' :
  (k', v') ∈ DictCache.od (DictCache.do_access a c) →
  match a with
  | DictCache.Read _ => (k', v') ∈ DictCache.od c
  | DictCache.Write k v =>
      (k' = k ∧ v' = v) ∨ (k' ≠ k ∧ (k', v') ∈ DictCache.od c)
  end.
Proof.
  destruct a as [k|k v]; simpl; unfold after;
    destruct (decide (k ∈ cache_keys c)) as [Hk|Hk].
  - destruct (read_stored c k Hk) as (v & Hin & ->). simpl.
    intros [[_ ?]%elem_of_od_others|Heq%list_elem_of_singleton]%elem_of_app;
      [done|by simplify_eq].
  - by rewrite read_missing.
  - rewrite write_stored by done. simpl.
    intros [[? ?]%elem_of_od_others|Heq%list_elem_of_singleton]%elem_of_app;
      [by right|left; by simplify_eq].
  - rewrite write_new by done. simpl. intros Hin.
    assert ((k', v') ∈ DictCache.od c ++ [(k, v)]) as Hin'.
    { destruct (decide _); [|done].
      destruct (DictCache.od c); simpl in *; [by apply elem_of_nil in Hin|].
      by right. }
    apply elem_of_app in Hin' as [Hin'|Heq%list_elem_of_singleton];
      [|left; by simplify_eq].
    right. split; [|done]. intros ->. apply Hk.
    apply list_elem_of_fmap. by exists (k, v').
Qed.

Lemma last_write_snoc k acs a :
  last_write k (acs ++ [a]) =
  match a with
  | DictCache.Write k' v => if decide (k' = k) then Some v else last_write k acs
  | DictCache.Read _ => last_write k acs
  end.
Proof.
  induction acs as [|a' acs IH]; simpl.
  - destruct a as [|k' v]; [done|]. by destruct (decide _).
  - rewrite IH. destruct a as [|k' v]; [done|].
    destruct (decide (k' = k)); [done|]. done.
Qed.

(** Every stored value is the value of the last write of its key. *)
Lemma accesses_last_write acs maxsize k v :
  (k, v) ∈ DictCache.od (DictCache.do_accesses acs (DictCache.__init__ maxsize)) →
  last_write k acs = Some v.
Proof.
  revert k v. induction acs as [|a acs IH] using rev_ind; intros k v.
  { by intros ?%elem_of_nil. }
  rewrite accesses_snoc, last_write_snoc. intros Hin%access_items.
  destruct a as [k0|k0 v0].
  - by apply IH.
  - destruct Hin as [[-> ->]|[Hne Hin]].
    + by rewrite decide_True.
    + rewrite decide_False by done. by apply IH.
Qed.

Lemma accesses_NoDup acs maxsize :
  NoDup (cache_keys (DictCache.do_accesses acs (DictCache.__init__ maxsize))).
Proof. by destruct (accesses_recency acs maxsize) as (? & _). Qed.

Lemma accesses_capacity acs maxsize :
  (0 ≤ maxsize)%Z →
  (Z.of_nat (length (cache_keys
     (DictCache.do_accesses acs (DictCache.__init__ maxsize)))) ≤ maxsize)%Z.
Proof.
  intros Hmax. induction acs as [|a acs IH] using rev_ind; [simpl; lia|].
  rewrite accesses_snoc.
  pose proof (accesses_maxsize acs (DictCache.__init__ (K := K) (V := V) maxsize))
    as Hc. simpl in Hc.
  rewrite <-Hc at 2. apply access_capacity; rewrite Hc; [lia|done].
Qed.

Lemma NoDup_filter_ne_length (ks : list K) k :
  NoDup ks → k ∈ ks → S (length (filter (λ k', k' ≠ k) ks)) = length ks.
Proof.
  induction 1 as [|k0 ks Hk0 Hnd IH]; [by intros ?%elem_of_nil|].
  intros [->|Hk]%elem_of_cons.
  - rewrite filter_cons_False by naive_solver.
    by rewrite filter_ne_missing.
  - rewrite filter_cons_True by (intros ->; done). simpl. f_equal. auto.
Qed.

(** X17. A read of a key that is not stored: [cache[k]] raises [KeyError]
    exactly when [k] is not stored, and then the cache, with the order of its
    items, is left as it was. *)
Theorem X17_read_missing c k :
  (result (DictCache.__getitem__ k) c = inl KeyError ↔ k ∉ cache_keys c) ∧
  (k ∉ cache_keys c → after (DictCache.__getitem__ k) c = c).
Proof.
  split.
  - split.
    + intros Hr Hk. destruct (read_stored c k Hk) as (v & _ & Heq).
      unfold result in Hr. by rewrite Heq in Hr.
    + intros Hk. unfold result. by rewrite read_missing.
  - intros Hk. unfold after. by rewrite read_missing.
Qed.

(** X18. A write is read back: in a cache with [maxsize >= 1], whatever it
    holds, [cache[k]] right after [cache[k] = v] returns [v] and changes
    nothing more; the written item is the most recently used one. *)
Theorem X18_write_then_read c k v :
  (1 ≤ DictCache.maxsize c)%Z →
  let c' := after (DictCache.__setitem__ k v) c in
  DictCache.__getitem__ k c' = (inr v, c') ∧
  last (DictCache.od c') = Some (k, v).
Proof.
  intros Hmax c'. destruct (write_shape c k v Hmax) as (od' & Hc' & Hk & _).
  subst c'. rewrite Hc'. split; [by apply read_last|]. simpl. apply last_snoc.
Qed.

(** X19. After an eviction: when a new key is written into a full cache
    ([maxsize >= 1], reached by reads and writes from the empty cache), the
    key of the first item raises [KeyError] from then on, and every other
    item is still read with its value. *)
Theorem X19_evicted_key_is_gone (maxsize : Z) acs k v :
  (1 ≤ maxsize)%Z →
  let c := DictCache.do_accesses acs (DictCache.__init__ maxsize) in
  k ∉ cache_keys c → Z.of_nat (length (cache_keys c)) = maxsize →
  ∃ lru rest,
    DictCache.od c = lru :: rest ∧
    result (DictCache.__getitem__ lru.1) (after (DictCache.__setitem__ k v) c)
      = inl KeyError ∧
    ∀ k' v', (k', v') ∈ rest →
      result (DictCache.__getitem__ k') (after (DictCache.__setitem__ k v) c)
        = inr v'.
Proof.
  intros Hmax c Hk Hlen.
  pose proof (accesses_NoDup acs maxsize) as Hnd. fold c in Hnd.
  assert (DictCache.maxsize c = maxsize) as Hc by apply accesses_maxsize.
  unfold after. rewrite write_new by done. unfold cache_keys in *.
  rewrite length_fmap in Hlen. rewrite Hc, decide_True by lia.
  destruct (DictCache.od c) as [|lru rest] eqn:Hod; simpl in *; [lia|].
  exists lru, rest. apply NoDup_cons in Hnd as [Hlru Hnd].
  apply not_elem_of_cons in Hk as [Hne Hk]. split_and!; [done| |].
  - unfold result. rewrite read_missing; [done|].
    unfold cache_keys. simpl. rewrite fmap_app. simpl.
    rewrite elem_of_app, list_elem_of_singleton. intros [?|?]; [done|].
    by apply Hne.
  - intros k' v' Hin.
    assert (k' ∈ rest.*1) as Hk' by (apply list_elem_of_fmap; by exists (k', v')).
    destruct (read_stored (DictCache.mk (rest ++ [(k, v)]) maxsize) k')
      as (v'' & Hin' & Heq).
    { unfold cache_keys. simpl. rewrite fmap_app. apply elem_of_app. by left. }
    unfold result. rewrite Heq. simpl in *. f_equal.
    apply elem_of_app in Hin' as [Hin'|Hin'%list_elem_of_singleton].
    + apply list_elem_of_lookup in Hin as [i Hi], Hin' as [j Hj].
      assert (i = j) as ->; [|congruence].
      eapply NoDup_lookup; [exact Hnd|..]; rewrite list_lookup_fmap.
      * by rewrite Hi.
      * by rewrite Hj.
    + injection Hin' as -> ->. by destruct Hk.
Qed.

(** X20. No stale value: after any program of reads and writes on an empty
    cache, when [cache[k]] returns [v], the last write of [k] in the program
    wrote [v]. *)
Theorem X20_read_returns_last_write (maxsize : Z) acs k v :
  result (DictCache.__getitem__ k)
    (DictCache.do_accesses acs (DictCache.__init__ maxsize)) = inr v →
  last_write k acs = Some v.
Proof.
  set (c := DictCache.do_accesses acs (DictCache.__init__ maxsize)).
  intros Hr. apply (accesses_last_write acs maxsize). fold c.
  destruct (decide (k ∈ cache_keys c)) as [Hk|Hk].
  - destruct (read_stored c k Hk) as (v' & Hin & Heq).
    unfold result in Hr. rewrite Heq in Hr. simpl in Hr. by simplify_eq.
  - unfold result in Hr. by rewrite read_missing in Hr.
Qed.

(** X21. What every access keeps: after any program of reads and writes on
    an empty cache the stored keys are pairwise distinct, [maxsize] is the
    one the cache was built with, and, when it is not negative, the cache
    holds at most [maxsize] keys. *)
Theorem X21_cache_invariants (maxsize : Z) acs :
  let c := DictCache.do_accesses acs (DictCache.__init__ maxsize) in
  NoDup (cache_keys c) ∧
  DictCache.maxsize c = maxsize ∧
  ((0 ≤ maxsize)%Z → (Z.of_nat (length (cache_keys c)) ≤ maxsize)%Z).
Proof.
  intros c. split_and!.
  - apply accesses_NoDup.
  - apply accesses_maxsize.
  - apply accesses_capacity.
Qed.

(** X22. The size after a write: in a cache with [maxsize >= 1] reached
    from the empty cache, writing a stored key keeps the number of keys, and
    writing a new key makes it one more, up to [maxsize]. *)
Theorem X22_size_after_write (maxsize : Z) acs k v :
  (1 ≤ maxsize)%Z →
  let c := DictCache.do_accesses acs (DictCache.__init__ maxsize) in
  Z.of_nat (length (cache_keys (after (DictCache.__setitem__ k v) c))) =
  if decide (k ∈ cache_keys c) then Z.of_nat (length (cache_keys c))
  else Z.min (Z.of_nat (length (cache_keys c)) + 1) maxsize.
Proof.
  intros Hmax c.
  pose proof (accesses_NoDup acs maxsize) as Hnd.
  pose proof (accesses_capacity acs maxsize ltac:(lia)) as Hcap.
  fold c in Hnd, Hcap.
  assert (DictCache.maxsize c = maxsize) as Hc by apply accesses_maxsize.
  pose proof (access_keys (DictCache.Write k v) c) as Hkeys. simpl in Hkeys.
  rewrite Hkeys, Hc. clear Hkeys.
  destruct (decide (k ∈ cache_keys c)) as [Hk|Hk].
  - destruct (decide (_ ∧ _)) as [[? _]|_]; [done|]. rewrite length_app. simpl.
    pose proof (NoDup_filter_ne_length (cache_keys c) k Hnd Hk). lia.
  - rewrite filter_ne_missing by done.
    destruct (decide (_ ∧ _)) as [[_ Hgt]|Hn].
    + destruct (cache_keys c); simpl in *; [lia|]. rewrite length_app. simpl. lia.
    + assert (¬ (Z.of_nat (S (length (cache_keys c))) > maxsize)%Z) by tauto.
      rewrite length_app. simpl. lia.
Qed.

(** X23. What an access leaves alone: after any program of reads and writes
    on an empty cache, an access never changes the value of another key
    (an item of another key that is stored afterwards was stored before),
    and a read of a stored key keeps every item, changing only their
    order. *)
Theorem X23_access_frame (maxsize : Z) acs :
  let c := DictCache.do_accesses acs (DictCache.__init__ maxsize) in
  (∀ a k' v', k' ≠ DictCache.access_key a →
     (k', v') ∈ DictCache.od (DictCache.do_access a c) →
     (k', v') ∈ DictCache.od c) ∧
  (∀ k, k ∈ cache_keys c →
     DictCache.od (after (DictCache.__getitem__ k) c) ≡ₚ DictCache.od c).
Proof.
  intros c. split.
  - intros a k' v' Hne Hin%access_items. destruct a as [k|k v]; [done|].
    simpl in Hne. by destruct Hin as [[? _]|[_ ?]].
  - intros k Hk. pose proof (accesses_NoDup acs maxsize) as Hnd. fold c in Hnd.
    destruct (read_stored c k Hk) as (v & Hin & Heq).
    unfold after. rewrite Heq. simpl.
    assert (NoDup (DictCache.od c)) as Hnd' by (by eapply NoDup_fmap_1).
    apply NoDup_Permutation; [|done|].
    + apply NoDup_app. split_and!.
      * by apply NoDup_filter.
      * intros [k' v'] [Hne _]%elem_of_od_others ?%list_elem_of_singleton.
        by simplify_eq.
      * apply NoDup_singleton.
    + intros [k' v']. rewrite elem_of_app, elem_of_od_others, list_elem_of_singleton.
      split.
      * intros [[_ ?]|?]; [done|by simplify_eq].
      * intros Hin'. destruct (decide (k' = k)) as [->|]; [|by left].
        right. f_equal.
        apply list_elem_of_lookup in Hin as [i Hi], Hin' as [j Hj].
        assert (j = i) as ->; [|congruence].
        eapply NoDup_lookup; [exact Hnd|..]; unfold cache_keys;
          rewrite list_lookup_fmap; [by rewrite Hj|by rewrite Hi].
Qed.

End dict_cache_more.

(** * The further properties at the dictionaries of the tests *)

Section more_witnesses.
Local Open Scope Z_scope.
Local Open Scope string_scope.
Local Open Scope list_scope.

Lemma prepared_stored_a : ("a", Some 1) ∈ items prepared_sorted_dict.
Proof. apply (bool_decide_unpack _). vm_compute. exact I. Defined.

Lemma prepared_missing_d : "d" ∉ keys prepared_sorted_dict.
Proof. apply (bool_decide_unpack _). vm_compute. exact I. Defined.

Lemma prepared_stored_key_a : "a" ∈ keys prepared_sorted_dict.
Proof. apply (bool_decide_unpack _). vm_compute. exact I. Defined.

Lemma prepared_cache_missing_c : "c" ∉ cache_keys prepared_cache.
Proof. apply (bool_decide_unpack _). vm_compute. exact I. Defined.

Lemma prepared_cache_stored_a : "a" ∈ cache_keys prepared_cache.
Proof. apply (bool_decide_unpack _). vm_compute. exact I. Defined.

Lemma X1_witness :
  increasing prepared_sorted_dict ∧
  ("a", Some 1) ∈ items prepared_sorted_dict ∧
  ("d" ∉ keys prepared_sorted_dict) ∧
  result (get "a" None) prepared_sorted_dict = inr (Some 1) ∧
  result (get "d" (Some 0)) prepared_sorted_dict = inr (Some 0).
Proof.
  split; [exact prepared_sorted_dict_increasing|].
  split; [exact prepared_stored_a|]. split; [exact prepared_missing_d|]. split.
  - exact (proj1 (proj2 (proj2 (X1_get_total "a" None) prepared_sorted_dict
                           prepared_sorted_dict_increasing))
             (Some 1) prepared_stored_a).
  - exact (proj2 (proj2 (proj2 (X1_get_total "d" (Some 0)) prepared_sorted_dict
                           prepared_sorted_dict_increasing))
             prepared_missing_d).
Defined.

Lemma X2_witness :
  "b" ≠ "a" ∧ increasing prepared_sorted_dict ∧
  result (get "b" None) (after (__setitem__ "a" (Some 9)) prepared_sorted_dict) =
  result (get "b" None) prepared_sorted_dict.
Proof.
  assert ("b" ≠ "a") as Hne by discriminate.
  split; [exact Hne|]. split; [exact prepared_sorted_dict_increasing|].
  exact (proj1 (proj2 (X2_setitem_frame "a" "b" (Some 9) None Hne)
                  prepared_sorted_dict prepared_sorted_dict_increasing)).
Defined.

Lemma X3_witness :
  increasing prepared_sorted_dict ∧
  ("a", Some 1) ∈ items prepared_sorted_dict ∧
  __len__ prepared_sorted_dict =
    S (__len__ (after (pop "a" None) prepared_sorted_dict)) ∧
  result (pop "a" None) (after (pop "a" None) prepared_sorted_dict) = inl KeyError.
Proof.
  split; [exact prepared_sorted_dict_increasing|].
  split; [exact prepared_stored_a|].
  destruct (proj2 (X3_pop_frame "a" "b" (Some 1) None None)
              prepared_sorted_dict prepared_sorted_dict_increasing
              prepared_stored_a) as (Hlen & Hpop & _).
  split; [exact Hlen|exact Hpop].
Defined.

Lemma X4_witness :
  increasing prepared_sorted_dict ∧
  ("d" ∉ keys prepared_sorted_dict) ∧
  setdefault "d" (Some 5) (after (setdefault "d" (Some 4)) prepared_sorted_dict) =
  (inr (Some 4), after (setdefault "d" (Some 4)) prepared_sorted_dict).
Proof.
  split; [exact prepared_sorted_dict_increasing|].
  split; [exact prepared_missing_d|].
  exact (proj2 (X4_setdefault_twice "d" (Some 4) (Some 5)) prepared_sorted_dict
           prepared_sorted_dict_increasing prepared_missing_d).
Defined.

Lemma X5_witness :
  increasing prepared_sorted_dict ∧
  keys prepared_sorted_dict = (items prepared_sorted_dict).*1 ∧
  __len__ prepared_sorted_dict = length (keys prepared_sorted_dict).
Proof.
  split; [exact prepared_sorted_dict_increasing|].
  destruct (proj2 (X5_views_agree (K := string) (V := option Z))
              prepared_sorted_dict prepared_sorted_dict_increasing)
    as (Hkeys & _ & Hlen & _).
  split; [exact Hkeys|exact Hlen].
Defined.


Lemma X7_witness :
  increasing prepared_sorted_dict ∧
  "a" ∈ keys prepared_sorted_dict ∧
  ("d" ∉ keys prepared_sorted_dict) ∧
  _add_entry (mkEntry "a" (Some 99)) prepared_sorted_dict = prepared_sorted_dict ∧
  _remove_entry (mkEntry "d" (Some 99)) prepared_sorted_dict = inl KeyError.
Proof.
  split; [exact prepared_sorted_dict_increasing|].
  split; [exact prepared_stored_key_a|]. split; [exact prepared_missing_d|]. split.
  - exact (proj1 (proj2 (X7_storage_methods_by_key "a" (Some 1) (Some 99))
                    prepared_sorted_dict prepared_sorted_dict_increasing)
             prepared_stored_key_a).
  - exact (proj1 (proj2 (proj2 (X7_storage_methods_by_key "d" (Some 1) (Some 99))
                           prepared_sorted_dict prepared_sorted_dict_increasing))
             prepared_missing_d).
Defined.


(** The dictionary of the tests, written in the opposite order. *)
Lemma X9_witness :
  let s2 : list (Entry string (option Z)) :=
    do_calls [CallSetitem "c" (Some 3); CallSetitem "b" (Some 2);
              CallSetitem "a" (Some 1)] MySortedDict.__init__ in
  increasing prepared_sorted_dict ∧ increasing s2 ∧
  (items prepared_sorted_dict ≡ₚ items s2) ∧
  prepared_sorted_dict = s2.
Proof.
  intros s2.
  assert (increasing s2) as Hs2
    by (apply (bool_decide_unpack _); vm_compute; exact I).
  assert (items prepared_sorted_dict ≡ₚ items s2) as Hp by reflexivity.
  split; [exact prepared_sorted_dict_increasing|].
  split; [exact Hs2|]. split; [exact Hp|].
  exact (proj1 (X9_sorted_storage_canonical prepared_sorted_dict s2
                  prepared_sorted_dict_increasing Hs2 Hp)).
Defined.

Lemma X13_witness :
  increasing prepared_sorted_dict ∧
  MySortedDict.bisect_right "b" prepared_sorted_dict =
  (MySortedDict.bisect_left "b" prepared_sorted_dict +
   (if decide ("b" ∈ keys prepared_sorted_dict) then 1 else 0))%nat.
Proof.
  split; [exact prepared_sorted_dict_increasing|].
  exact (proj2 (X13_bisect_bracket prepared_sorted_dict "b"
                  prepared_sorted_dict_increasing)).
Defined.

Lemma X14_witness :
  increasing prepared_sorted_dict ∧
  ("a", Some 1) ∈ items prepared_sorted_dict ∧
  MySortedDict.peekitem
    (Z.of_nat (MySortedDict.bisect_left "a" prepared_sorted_dict))
    prepared_sorted_dict = (inr ("a", Some 1), prepared_sorted_dict).
Proof.
  split; [exact prepared_sorted_dict_increasing|].
  split; [exact prepared_stored_a|].
  exact (proj1 (X14_peekitem_bisect prepared_sorted_dict
                  prepared_sorted_dict_increasing) "a" (Some 1) prepared_stored_a).
Defined.

Lemma X15_witness :
  increasing prepared_sorted_dict ∧ (0 < __len__ prepared_sorted_dict)%nat ∧
  ∃ k0 v0 k1 v1,
    MySortedDict.peekitem 0 prepared_sorted_dict =
      (inr (k0, v0), prepared_sorted_dict) ∧
    MySortedDict.peekitem (-1) prepared_sorted_dict =
      (inr (k1, v1), prepared_sorted_dict) ∧
    (k0, v0) ∈ items prepared_sorted_dict ∧
    (k1, v1) ∈ items prepared_sorted_dict ∧
    ∀ k, k ∈ keys prepared_sorted_dict → py_le k0 k = true ∧ py_le k k1 = true.
Proof.
  assert (0 < __len__ prepared_sorted_dict)%nat as Hlen by (vm_compute; lia).
  split; [exact prepared_sorted_dict_increasing|]. split; [exact Hlen|].
  exact (X15_peekitem_ends prepared_sorted_dict
           prepared_sorted_dict_increasing Hlen).
Defined.

Lemma X16_witness :
  increasing prepared_sorted_dict ∧
  (MySortedDict.bisect_left "d" prepared_sorted_dict =
     __len__ prepared_sorted_dict) ∧
  ∀ k', k' ∈ keys prepared_sorted_dict → py_lt k' "d" = true.
Proof.
  assert (MySortedDict.bisect_left "d" prepared_sorted_dict =
          __len__ prepared_sorted_dict) as Hend by reflexivity.
  split; [exact prepared_sorted_dict_increasing|]. split; [exact Hend|].
  exact (proj1 (X16_bisect_neighbours prepared_sorted_dict "d"
                  prepared_sorted_dict_increasing) Hend).
Defined.

Lemma X17_witness :
  ("c" ∉ cache_keys prepared_cache) ∧
  after (DictCache.__getitem__ "c") prepared_cache = prepared_cache.
Proof.
  split; [exact prepared_cache_missing_c|].
  exact (proj2 (X17_read_missing prepared_cache "c") prepared_cache_missing_c).
Defined.

Lemma X18_witness :
  (1 ≤ DictCache.maxsize prepared_cache)%Z ∧
  DictCache.__getitem__ "c" (after (DictCache.__setitem__ "c" 30) prepared_cache) =
  (inr 30, after (DictCache.__setitem__ "c" 30) prepared_cache).
Proof.
  assert (1 ≤ DictCache.maxsize prepared_cache)%Z as Hmax by (vm_compute; discriminate).
  split; [exact Hmax|].
  exact (proj1 (X18_write_then_read prepared_cache "c" 30 Hmax)).
Defined.

Lemma X19_witness :
  (1 ≤ 2)%Z ∧ ("c" ∉ cache_keys prepared_cache) ∧
  Z.of_nat (length (cache_keys prepared_cache)) = 2 ∧
  ∃ lru rest,
    DictCache.od prepared_cache = lru :: rest ∧
    result (DictCache.__getitem__ lru.1)
      (after (DictCache.__setitem__ "c" 30) prepared_cache) = inl KeyError ∧
    ∀ k' v', (k', v') ∈ rest →
      result (DictCache.__getitem__ k')
        (after (DictCache.__setitem__ "c" 30) prepared_cache) = inr v'.
Proof.
  assert (1 ≤ 2)%Z as Hmax by lia.
  assert (Z.of_nat (length (cache_keys prepared_cache)) = 2) as Hfull
    by reflexivity.
  split; [exact Hmax|]. split; [exact prepared_cache_missing_c|].
  split; [exact Hfull|].
  exact (X19_evicted_key_is_gone 2 prepared_accesses "c" 30 Hmax
           prepared_cache_missing_c Hfull).
Defined.

Lemma X20_witness :
  result (DictCache.__getitem__ "a") prepared_cache = inr 1 ∧
  last_write "a" prepared_accesses = Some 1.
Proof.
  assert (result (DictCache.__getitem__ "a") prepared_cache = inr 1) as Hr
    by reflexivity.
  split; [exact Hr|].
  exact (X20_read_returns_last_write 2 prepared_accesses "a" 1 Hr).
Defined.

Lemma X21_witness :
  (0 ≤ 2)%Z ∧
  (Z.of_nat (length (cache_keys prepared_cache)) ≤ 2)%Z.
Proof.
  assert (0 ≤ 2)%Z as Hmax by lia.
  split; [exact Hmax|].
  exact (proj2 (proj2 (X21_cache_invariants 2 prepared_accesses)) Hmax).
Defined.

Lemma X22_witness :
  (1 ≤ 2)%Z ∧
  Z.of_nat (length (cache_keys
    (after (DictCache.__setitem__ "c" 30) prepared_cache))) =
  if decide ("c" ∈ cache_keys prepared_cache)
  then Z.of_nat (length (cache_keys prepared_cache))
  else Z.min (Z.of_nat (length (cache_keys prepared_cache)) + 1) 2.
Proof.
  assert (1 ≤ 2)%Z as Hmax by lia.
  split; [exact Hmax|].
  exact (X22_size_after_write 2 prepared_accesses "c" 30 Hmax).
Defined.

Lemma X23_witness :
  "a" ∈ cache_keys prepared_cache ∧
  (DictCache.od (after (DictCache.__getitem__ "a") prepared_cache)
     ≡ₚ DictCache.od prepared_cache).
Proof.
  split; [exact prepared_cache_stored_a|].
  exact (proj2 (X23_access_frame 2 prepared_accesses) "a" prepared_cache_stored_a).
Defined.

End more_witnesses.

(** * A cache that is large enough *)

Section large_cache.
Context {K V : Type} `{EqDecision K}.
Implicit Types (c : DictCache.t (K := K) (V := V)) (k : K) (v : V).
Implicit Types (acs : list (DictCache.access (K := K) (V := V))).

Lemma written_keys_snoc acs a :
  written_keys (acs ++ [a]) =
  written_keys acs ++
  match a with DictCache.Write k _ => [k] | DictCache.Read _ => [] end.
Proof. unfold written_keys. rewrite omap_app. by destruct a. Qed.

Lemma last_write_written k acs :
  is_Some (last_write k acs) ↔ k ∈ written_keys acs.
Proof.
  induction acs as [|a acs IH] using rev_ind.
  { simpl. split; [by intros [? ?]|by intros ?%elem_of_nil]. }
  rewrite last_write_snoc, written_keys_snoc, elem_of_app, <-IH.
  destruct a as [k0|k0 v0].
  - rewrite elem_of_nil. tauto.
  - rewrite list_elem_of_singleton. destruct (decide (k0 = k)) as [->|].
    + split; [by right|eauto].
    + split; [by left|]. intros [?|?]; [done|congruence].
Qed.

(** Distinct keys that were all written are no more than the distinct
    written keys. *)
Lemma distinct_written_length acs (ks : list K) :
  NoDup ks → (∀ k, k ∈ ks → k ∈ written_keys acs) →
  length ks ≤ length (remove_dups (written_keys acs)).
Proof.
  intros Hnd Hsub. apply submseteq_length, NoDup_submseteq; [done|].
  intros k ?. apply elem_of_remove_dups. auto.
Qed.

Lemma elem_of_moved (ks : list K) k k' :
  k' ∈ filter (λ k0, k0 ≠ k) ks ++ [k] ↔ k' ∈ ks ∨ k' = k.
Proof.
  rewrite elem_of_app, list_elem_of_filter, list_elem_of_singleton.
  destruct (decide (k' = k)); tauto.
Qed.

(** While the distinct written keys fit, the stored keys are the written
    keys. *)
Lemma accesses_no_eviction acs maxsize :
  (Z.of_nat (length (remove_dups (written_keys acs))) ≤ maxsize)%Z →
  ∀ k, k ∈ cache_keys (DictCache.do_accesses acs (DictCache.__init__ maxsize))
       ↔ k ∈ written_keys acs.
Proof.
  induction acs as [|a acs IH] using rev_ind; intros Hfit k; [done|].
  pose proof (accesses_NoDup acs maxsize) as Hnd.
  pose proof (accesses_maxsize acs (DictCache.__init__ (K := K) (V := V) maxsize))
    as Hc. simpl in Hc.
  assert (∀ k, k ∈ written_keys acs → k ∈ written_keys (acs ++ [a])) as Hmono.
  { intros k0 ?. rewrite written_keys_snoc. apply elem_of_app. by left. }
  assert (Z.of_nat (length (remove_dups (written_keys acs))) ≤ maxsize)%Z as Hfit'.
  { pose proof (distinct_written_length (acs ++ [a])
      (remove_dups (written_keys acs))) as Hle.
    specialize (Hle (NoDup_remove_dups _)).
    assert (∀ k0, k0 ∈ remove_dups (written_keys acs) →
      k0 ∈ written_keys (acs ++ [a])) as Hsub.
    { intros k0 Hk0. apply Hmono. by apply (elem_of_remove_dups _ k0). }
    specialize (Hle Hsub). lia. }
  specialize (IH Hfit').
  rewrite accesses_snoc, access_keys, written_keys_snoc. simpl.
  set (c := DictCache.do_accesses acs _) in *.
  destruct a as [k0|k0 v0]; simpl.
  - rewrite app_nil_r. destruct (decide (k0 ∈ cache_keys c)) as [Hk0|]; [|done].
    rewrite elem_of_moved, <-IH. split; [|by left].
    intros [?|Heq]; [done|by rewrite Heq].
  - destruct (decide (_ ∧ _)) as [[Hnew Hgt]|_].
    + exfalso. rewrite Hc in Hgt.
      pose proof (distinct_written_length (acs ++ [DictCache.Write k0 v0])
        (k0 :: cache_keys c)) as Hle.
      specialize (Hle ltac:(by constructor)).
      assert (∀ k1, k1 ∈ k0 :: cache_keys c →
        k1 ∈ written_keys (acs ++ [DictCache.Write k0 v0])) as Hsub.
      { intros k1 Hk1. apply elem_of_cons in Hk1 as [Heq|Hk1];
          [rewrite Heq|by apply Hmono, IH].
        rewrite written_keys_snoc. apply elem_of_app. right. left. }
      specialize (Hle Hsub). simpl in Hle. lia.
    + rewrite elem_of_moved, elem_of_app, list_elem_of_singleton, <-IH. done.
Qed.

(** X24. A cache that is large enough forgets nothing: when the distinct
    keys a program of reads and writes writes are at most [maxsize], after
    the program on an empty cache the stored keys are exactly the written
    keys, and every key that was written is read with the value of its last
    write. *)
Theorem X24_large_cache_keeps_all (maxsize : Z) acs :
  (Z.of_nat (length (remove_dups (written_keys acs))) ≤ maxsize)%Z →
  let c := DictCache.do_accesses acs (DictCache.__init__ maxsize) in
  (∀ k, k ∈ cache_keys c ↔ k ∈ written_keys acs) ∧
  (∀ k v, last_write k acs = Some v →
     result (DictCache.__getitem__ k) c = inr v).
Proof.
  intros Hfit c. pose proof (accesses_no_eviction acs maxsize Hfit) as Hkeys.
  fold c in Hkeys. split; [done|]. intros k v Hlast.
  assert (k ∈ cache_keys c) as Hk.
  { apply Hkeys, last_write_written. eauto. }
  destruct (read_stored c k Hk) as (v' & Hin & Heq).
  unfold result. rewrite Heq. simpl. f_equal.
  pose proof (accesses_last_write acs maxsize k v' Hin). congruence.
Qed.

End large_cache.

Section large_cache_witness.
Local Open Scope Z_scope.
Local Open Scope string_scope.
Local Open Scope list_scope.

Lemma X24_witness :
  (Z.of_nat (length (remove_dups (written_keys prepared_accesses))) ≤ 2)%Z ∧
  last_write "a" prepared_accesses = Some 1 ∧
  result (DictCache.__getitem__ "a") prepared_cache = inr 1.
Proof.
  assert (Z.of_nat (length (remove_dups (written_keys prepared_accesses))) ≤ 2)%Z
    as Hfit by (vm_compute; discriminate).
  assert (last_write "a" prepared_accesses = Some 1) as Hlast by reflexivity.
  split; [exact Hfit|]. split; [exact Hlast|].
  exact (proj2 (X24_large_cache_keeps_all 2 prepared_accesses Hfit) "a" 1 Hlast).
Defined.

End large_cache_witness.
